(** * A distributed lock over PostgreSQL advisory locks

    Shallow embedding of the Go packages
    - [kit/errors]               (Wrap, Wrapf, Unwrap, Is),
    - [kit/distributedlock]      (ErrAcquiredLock, the Lock interface,
                                  ContextLock, WaitForLock),
    - [kit/distributedlock/sql]  (DistributedLock, hash, Lock and its methods),
    together with the two collaborators the lock is written against: Go's
    [hash/fnv] 64-bit FNV-1a and a [database/sql] session on a PostgreSQL
    server that hands out transaction-scoped advisory locks. *)

From Stdlib Require Import ZArith String Ascii List Lia.
From stdpp Require Import strings gmap.

Local Open Scope string_scope.
Local Open Scope Z_scope.

(** ** kit/errors *)

Module errors.

(** Go error values met in these packages.  A Go [error] that may be nil
    is an [option error]. *)
Inductive error : Type :=
| dlock_Error (s : string)               (* dlock.Error: type Error string *)
| sql_Error (s : string)                 (* an error of database/sql or of the driver *)
| context_Canceled                       (* context.Canceled *)
| context_DeadlineExceeded               (* context.DeadlineExceeded *)
| wrapError (msg : string) (err : error) (* fmt.Errorf with one %w verb *).

(** The [Error() string] method. *)
Definition Error (e : error) : string :=
  match e with
  | dlock_Error s => s
  | sql_Error s => s
  | context_Canceled => "context canceled"
  | context_DeadlineExceeded => "context deadline exceeded"
  | wrapError msg _ => msg
  end.

(** [fmt.Errorf("%s: %w", message, err)] *)
Definition Errorf_s_w (message : string) (err : error) : error :=
  wrapError (message +:+ ": " +:+ Error err) err.

(** [func Wrap(err error, message string) error] *)
Definition Wrap (err : option error) (message : string) : option error :=
  match err with
  | None => None
  | Some e => Some (Errorf_s_w message e)
  end.

(** [func Wrapf(err error, format string, args ...interface{}) error];
    [msg] is [fmt.Sprintf(format, args...)]. *)
Definition Wrapf (err : option error) (msg : string) : option error :=
  match err with
  | None => None
  | Some _ => Wrap err msg
  end.

(** [func Unwrap(err error) error] *)
Definition Unwrap (err : option error) : option error :=
  match err with
  | Some (wrapError _ inner) => Some inner
  | _ => None
  end.

(** Go's [==] on the error values of this development.  A [dlock.Error] is
    a string and compares by its text; [context.Canceled] and
    [context.DeadlineExceeded] are single values.  An error made by the
    driver or by [fmt.Errorf] is a pointer, equal only to itself: the
    comparison by structure below agrees with Go where the two sides are
    the same value, which is how the statements below use it. *)
Fixpoint error_eqb (a b : error) : bool :=
  match a, b with
  | dlock_Error s, dlock_Error s' => String.eqb s s'
  | sql_Error s, sql_Error s' => String.eqb s s'
  | context_Canceled, context_Canceled => true
  | context_DeadlineExceeded, context_DeadlineExceeded => true
  | wrapError m e, wrapError m' e' => String.eqb m m' && error_eqb e e'
  | _, _ => false
  end.

(** The chain walked by the standard [errors.Is]: the error itself, then
    what [Unwrap] yields, repeatedly. *)
Fixpoint chain_has (e target : error) : bool :=
  error_eqb e target ||
  match e with
  | wrapError _ inner => chain_has inner target
  | _ => false
  end.

(** [func Is(err, target error) bool] *)
Definition Is (err target : option error) : bool :=
  match err, target with
  | None, None => true
  | Some e, Some t => chain_has e t
  | _, _ => false
  end.

End errors.
Export errors.

(** ** hash/fnv: the 64-bit FNV-1a state behind [fnv.New64a()] *)

Module fnv.

Definition offset64 : Z := 14695981039346656037.
Definition prime64 : Z := 1099511628211.

Definition sum64a := Z.

Definition New64a : sum64a := offset64.

(** One round of the loop of the Write method of sum64a:
    [hash ^= sum64a(c); hash *= prime64] on a uint64. *)
Definition round (hash : sum64a) (c : ascii) : sum64a :=
  (Z.lxor hash (Z.of_N (N_of_ascii c)) * prime64) mod 2 ^ 64.

(** The Write method of sum64a, from a byte slice to (int, error): the new state, the
    number of bytes taken, and the error, which is always nil. *)
Definition Write (s : sum64a) (data : list ascii) : sum64a * (nat * option error) :=
  (fold_left round data s, (length data, None)).

Definition Sum64 (s : sum64a) : Z := s.

End fnv.

(** The conversion [int64(x)] of a uint64: same 64 bits, read in two's
    complement. *)
Definition int64 (u : Z) : Z :=
  if u <? 2 ^ 63 then u else u - 2 ^ 64.

(** ** context.Context

    A context is passed by reference and only handed on by this code.  What
    is read of it is whether it is done: by the two polling loops (its
    [Done()] channel and [Err()]) and by [database/sql], which looks at the
    context of a call before anything is sent.  That changes under the
    code, and is kept in the state of the helpers below.  A value of this
    type is a context as the call that receives it finds it: the way it was
    derived (which is also what tells one context from another here) and,
    once it is done, [context_done ctx err] for the context [ctx] with
    [Err() = err]. *)
Inductive Context : Type :=
| context_TODO
| context_WithTimeout (parent : Context) (nanoseconds : Z)
| context_WithCancel (parent : Context)
| context_done (ctx : Context) (err : error).

(** [ctx.Err()]: nil until the context, or one it was derived from, is
    done; the first termination fixes it. *)
Fixpoint context_Err (ctx : Context) : option error :=
  match ctx with
  | context_TODO => None
  | context_WithTimeout parent _ => context_Err parent
  | context_WithCancel parent => context_Err parent
  | context_done ctx err =>
      match context_Err ctx with
      | Some e => Some e
      | None => Some err
      end
  end.

(** The context [ctx] as a call finds it when [err] is what its [Err()]
    answers at that time. *)
Definition observed (ctx : Context) (err : option error) : Context :=
  match err with
  | Some e => context_done ctx e
  | None => ctx
  end.

#[global] Instance error_eq_dec : EqDecision error.
Proof. solve_decision. Defined.

#[global] Instance Context_eq_dec : EqDecision Context.
Proof. solve_decision. Defined.

(** [c] is [from] or was derived from it: it is done as soon as [from]
    is. *)
Fixpoint derives (c from : Context) : bool :=
  bool_decide (c = from) ||
  match c with
  | context_TODO => false
  | context_WithTimeout parent _ => derives parent from
  | context_WithCancel parent => derives parent from
  | context_done ctx _ => derives ctx from
  end.

(** What the end of a context does by itself, without any call of the
    code, to a state [W] that was given it (for a store: see [pg.ended]). *)
Class Ended (W : Type) : Type := ended : Context -> W -> W.

(** [context.CancelFunc]: the function returned next to a derived context. *)
Inductive CancelFunc : Type :=
| cancel_of (ctx : Context).

(** ** kit/distributedlock *)

Module dlock.

(** [const ErrAcquiredLock = Error("failed to acquired lock")] *)
Definition ErrAcquiredLock : error := dlock_Error "failed to acquired lock".

(** [type Lock interface].  An implementation acts on a state [W]: all
    that its methods read and write (for the SQL lock: the handle and the
    database server).  A method returns its error and the new state. *)
Module Lock.
Class t (W : Type) : Type := {
  Lock : Context -> W -> option error * W;
  IsLock : Context -> W -> option error * W;
  Release : W -> option error * W
}.
End Lock.

(** What a [select] statement of the two polling loops fired on: the
    context's [Done()] channel, or the ticker's channel [t.C]. *)
Inductive selected : Type :=
| case_Done
| case_tick.

(** The goroutine started by ContextLock. *)
Inductive task : Type :=
| NotStarted
| Running
| Exited.

Section helpers.
Context {W : Type} {l : Lock.t W} {env : Ended W}.

(** The caller's side of the helpers: the state the lock acts on, what
    the caller's context [ctx] and the derived [newCtx] answer to
    [Err()] (nil until done), the monitoring goroutine, and how many
    times that goroutine has called IsLock. *)
Record state : Type := mkstate {
  world : W;
  ctx_Err : option error;
  newCtx_Err : option error;
  monitor : task;
  probes : nat
}.

(** Before ContextLock: no derived context, no goroutine. *)
Definition initial (w : W) (ctx_Err : option error) : state :=
  mkstate w ctx_Err None NotStarted 0.

Definition set_world (w : W) (s : state) : state :=
  mkstate w (ctx_Err s) (newCtx_Err s) (monitor s) (probes s).

Definition set_monitor (m : task) (s : state) : state :=
  mkstate (world s) (ctx_Err s) (newCtx_Err s) m (probes s).

(** [func WaitForLock(ctx context.Context, l Lock) error]

    The ticker has period one second and delivers its first tick one
    period after [time.NewTicker].  Each element of [sched] is one
    iteration of the loop: the case its select fired on.  [ctx] is the
    context as the calls of Lock find it, and [ctx_Err] is what
    [ctx.Err()] answers once [ctx] is done, which is when the Done case
    can fire.  The result is [None] while the loop is still blocked in
    select at the end of [sched]. *)
Fixpoint WaitForLock (sched : list selected) (ctx : Context)
    (ctx_Err : error) (w : W) : option (option error) * W :=
  match sched with
  | [] => (None, w)
  | case_Done :: _ =>
      (Some (Wrap (Some ctx_Err) "timeout to acquired lock"), w)
  | case_tick :: sched' =>
      let '(err, w) := Lock.Lock ctx w in
      match err with
      | Some _ => WaitForLock sched' ctx ctx_Err w   (* continue *)
      | None => (Some None, w)
      end
  end.

(** The calls of [l.Lock] that WaitForLock makes along [sched]. *)
Fixpoint WaitForLock_attempts (sched : list selected) (ctx : Context)
    (w : W) : nat :=
  match sched with
  | [] => 0
  | case_Done :: _ => 0
  | case_tick :: sched' =>
      let '(err, w) := Lock.Lock ctx w in
      match err with
      | Some _ => S (WaitForLock_attempts sched' ctx w)
      | None => 1
      end
  end.

(** The [cancel] returned by [context.WithCancel(ctx)]: the first
    termination of a context fixes its [Err()], and is when the context
    ends. *)
Definition cancel (ctx : Context) (s : state) : state :=
  match newCtx_Err s with
  | Some _ => s
  | None =>
      mkstate (ended (context_WithCancel ctx) (world s))
        (ctx_Err s) (Some context_Canceled) (monitor s) (probes s)
  end.

(** The caller's [ctx] is cancelled or runs into its deadline, with
    [Err()] becoming [e]; the derived context is done with it. *)
Definition ctx_done (ctx : Context) (e : error) (s : state) : state :=
  match ctx_Err s with
  | Some _ => s
  | None =>
      mkstate (ended ctx (world s)) (Some e)
        (match newCtx_Err s with Some e' => Some e' | None => Some e end)
        (monitor s) (probes s)
  end.

(** [func ContextLock(ctx context.Context, l Lock)
      (context.Context, context.CancelFunc, error)] *)
Definition ContextLock (ctx : Context) (s : state)
    : (option Context * option CancelFunc * option error) * state :=
  let '(err, w) := Lock.Lock (observed ctx (ctx_Err s)) (world s) in
  match err with
  | Some _ => ((None, None, err), set_world w s)
  | None =>
      let newCtx := context_WithCancel ctx in
      ((Some newCtx, Some (cancel_of newCtx), None),
       mkstate w (ctx_Err s) (ctx_Err s) Running 0)
  end.

(** One iteration of the goroutine's [for { select { ... } }]. *)
Definition monitor_loop (ctx : Context) (sel : selected) (s : state) : state :=
  let newCtx := observed (context_WithCancel ctx) (newCtx_Err s) in
  match sel with
  | case_Done => set_monitor Exited s                     (* return *)
  | case_tick =>
      let '(err, w) := Lock.IsLock newCtx (world s) in
      let s := mkstate w (ctx_Err s) (newCtx_Err s) (monitor s) (S (probes s)) in
      match err with
      | Some _ => set_monitor Exited (cancel ctx s)       (* cancel(); return *)
      | None => s                                         (* continue to loop *)
      end
  end.

(** What happens around a lock wrapped by ContextLock. *)
Inductive event : Type :=
| ev_cancel                    (* the caller calls the returned cancel *)
| ev_ctx_done (e : error)      (* the caller's ctx terminates with Err() = e *)
| ev_select (sel : selected)   (* the goroutine's select fires *)
| ev_Release.                  (* the caller calls l.Release() *)

(** A receive from [newCtx.Done()] can fire only once that context is
    done; a receive from the ticker can fire whenever a tick is pending,
    also next to a done context, and select takes either one of two
    cases that are ready.  The goroutine takes steps only while it runs. *)
Definition step (ctx : Context) (s : state) (e : event) : option state :=
  match e with
  | ev_cancel => Some (cancel ctx s)
  | ev_ctx_done e => Some (ctx_done ctx e s)
  | ev_select sel =>
      match monitor s, sel, newCtx_Err s with
      | Running, case_Done, None => None
      | Running, _, _ => Some (monitor_loop ctx sel s)
      | _, _, _ => None
      end
  | ev_Release => Some (set_world (snd (Lock.Release (world s))) s)
  end.

Fixpoint run (ctx : Context) (s : state) (es : list event) : option state :=
  match es with
  | [] => Some s
  | e :: es' =>
      match step ctx s e with
      | Some s' => run ctx s' es'
      | None => None
      end
  end.

End helpers.

Arguments state W : clear implicits.

End dlock.

(** ** The backing store

    What the lock sees of [database/sql] and of the PostgreSQL server behind
    it: transactions, each on a session of its own, and the table of
    advisory locks.  A transaction-level advisory lock belongs to the
    transaction that took it and is given back when that transaction ends,
    whatever ends it. *)

(** [type dblock struct { Succeed bool }], the row both queries of the lock
    scan their result into. *)
Record dblock : Type := { Succeed : bool }.

(** [*sqlx.DB]: the connection pool a lock factory holds. *)
Definition sqlx_DB := nat.

Module pg.

(** [*sqlx.Tx]: transactions are numbered in the order they were begun. *)
Definition Tx := nat.

(** A session carries one transaction; an open one remembers the context
    its transaction was begun with. *)
Inductive session : Type :=
| Open (ctx : Context)
| Closed.

(** The two statements the lock sends. *)
Inductive query : Type :=
| pg_try_advisory_xact_lock (key : Z)    (* SELECT pg_try_advisory_xact_lock($1) as succeed; *)
| select_true.                           (* SELECT TRUE as succeed *)

Inductive call : Type :=
| call_BeginTxx
| call_GetContext (t : Tx) (q : query)
| call_Rollback (t : Tx).

(** The server and the driver: every transaction begun so far, the owner
    of each advisory lock that is held, the failures the driver has in
    store for the coming calls that reach it (one entry per call, the
    first for the next call; [Some msg] makes that call fail with [msg]
    before it reaches the server), and the calls the code has made so
    far, oldest first. *)
Record DB : Type := mkDB {
  sessions : list session;
  advisory : gmap Z Tx;
  script : list (option string);
  log : list call
}.

(** Computations on the store. *)
Definition M (A : Type) : Type := DB -> A * DB.

Definition ret {A : Type} (a : A) : M A := fun d => (a, d).

Definition bind {A B : Type} (m : M A) (k : A -> M B) : M B :=
  fun d => let '(a, d') := m d in k a d'.

Definition received (c : call) : M unit :=
  fun d => (tt, mkDB (sessions d) (advisory d) (script d) (log d ++ [c])).

Definition failure : M (option error) :=
  fun d =>
    match script d with
    | [] => (None, d)
    | f :: rest =>
        (option_map sql_Error f, mkDB (sessions d) (advisory d) rest (log d))
    end.

Definition alive (t : Tx) (d : DB) : bool :=
  match sessions d !! t with
  | Some (Open _) => true
  | _ => false
  end.

(** The end of transaction [t]: its session closes and the advisory locks
    it owns are free again. *)
Definition end_session (t : Tx) (d : DB) : DB :=
  mkDB (<[t := Closed]> (sessions d))
       (filter (fun kv => kv.2 <> t) (advisory d))
       (script d) (log d).

(** The server or the network ends a session behind the client's back. *)
Definition terminate (t : Tx) (d : DB) : DB := end_session t d.

(** Transaction [t] is open and was begun with [c] or with a context
    derived from [c]. *)
Definition bound (c : Context) (d : DB) (t : Tx) : bool :=
  match sessions d !! t with
  | Some (Open c') => derives c' c
  | _ => false
  end.

(** The end of context [c].  A transaction is bound to the context it was
    begun with: when that context is done, [database/sql] rolls the
    transaction back, so every transaction bound to [c] ends as by
    [end_session]. *)
Definition ended (c : Context) (d : DB) : DB :=
  mkDB (map (fun s => match s with
                      | Open c' => if derives c' c then Closed else Open c'
                      | Closed => Closed
                      end) (sessions d))
       (filter (fun kv => bound c d kv.2 = false) (advisory d))
       (script d) (log d).

Definition ErrBadConn : error := sql_Error "driver: bad connection".

End pg.

Notation "'do' x <- m ;; k" := (pg.bind m (fun x => k))
  (at level 10, x name, m at level 99, k at level 200).
Notation "'do' ' p <- m ;; k" := (pg.bind m (fun x => match x with p => k end))
  (at level 10, p pattern, m at level 99, k at level 200).

Module sqlx.
Import pg.

(** [func (db *DB) BeginTxx(ctx context.Context, opts *sql.TxOptions)],
    which returns a transaction or an error.  With a context that is done
    [database/sql] returns the context's error before it asks the driver
    for a connection; otherwise the transaction is bound to [ctx]. *)
Definition BeginTxx (db : sqlx_DB) (ctx : Context) : M (Tx + error) :=
  do _ <- received call_BeginTxx ;;
  match context_Err ctx with
  | Some e => ret (inr e)
  | None =>
      do f <- failure ;;
      match f with
      | Some e => ret (inr e)
      | None =>
          fun d =>
            (inl (length (sessions d)),
             mkDB (sessions d ++ [Open ctx]) (advisory d) (script d) (log d))
      end
  end.

(** The answer of the server to [q] sent in transaction [t]. *)
Definition answer (t : Tx) (q : query) : M bool :=
  match q with
  | select_true => ret true
  | pg_try_advisory_xact_lock key =>
      fun d =>
        match advisory d !! key with
        | None =>
            (true, mkDB (sessions d) (<[key := t]> (advisory d)) (script d) (log d))
        | Some owner => (bool_decide (owner = t), d)
        end
  end.

(** [func (tx *Tx) GetContext(ctx context.Context, dest interface{},
      query string, args ...interface{}) error], with the value of
    [dest] after the call: the row on success, untouched on error.  With
    a context that is done [database/sql] returns the context's error
    and sends nothing. *)
Definition GetContext (t : Tx) (ctx : Context) (dest : dblock) (q : query)
    : M (dblock * option error) :=
  do _ <- received (call_GetContext t q) ;;
  match context_Err ctx with
  | Some e => ret (dest, Some e)
  | None =>
      do f <- failure ;;
      match f with
      | Some e => ret (dest, Some e)
      | None =>
          fun d =>
            if alive t d
            then (do b <- answer t q ;; ret ({| Succeed := b |}, None)) d
            else ((dest, Some ErrBadConn), d)
      end
  end.

(** [func (tx *Tx) Rollback() error] *)
Definition Rollback (t : Tx) : M (option error) :=
  do _ <- received (call_Rollback t) ;;
  do f <- failure ;;
  match f with
  | Some e => ret (Some e)
  | None =>
      fun d =>
        if alive t d
        then (None, end_session t d)
        else (Some ErrBadConn, d)
  end.

End sqlx.

(** ** kit/distributedlock/sql *)

Module dlocksql.
Import pg.

(** [func hash(in string) (int64, error)] *)
Definition hash (in_ : string) : Z * option error :=
  let hashed := fnv.New64a in
  let '(hashed, (_, err)) := fnv.Write hashed (list_ascii_of_string in_) in
  match err with
  | Some _ => (0, Wrapf err ("failed to hash value " +:+ in_))
  | None => (int64 (fnv.Sum64 hashed), None)
  end.

(** [type Lock struct].  The mutex of the handle is held by each exported
    method from its first statement to its return, so an exported method
    is one uninterrupted transformer of the handle and the store. *)
Module Lock.

Record t : Type := mk {
  db : sqlx_DB;
  tx : option Tx;     (* current transaction that holds the lock, nil if not locked *)
  value : Z
}.

Definition set_tx (x : option Tx) (l : t) : t := mk (db l) x (value l).

(** [func (l *Lock) release() error] *)
Definition release (l : t) : M (option error * t) :=
  match tx l with
  | Some t =>
      do err <- sqlx.Rollback t ;;
      ret (err, set_tx None l)
  | None => ret (None, l)
  end.

(** [func (l *Lock) isLock(ctx context.Context) error] *)
Definition isLock (l : t) (ctx : Context) : M (option error * t) :=
  match tx l with
  | None =>
      ret (Wrap (Some dlock.ErrAcquiredLock) "does not lock the ressource", l)
  | Some t =>
      let res := {| Succeed := false |} in
      do '(res, err) <- sqlx.GetContext t ctx res select_true ;;
      match err with
      | Some _ =>
          do '(err, l) <- release l ;;
          match err with
          | Some e => ret (Wrap (Some dlock.ErrAcquiredLock) (Error e), l)
          | None => ret (Some dlock.ErrAcquiredLock, l)
          end
      | None => ret (None, l)
      end
  end.

(** [func (l *Lock) IsLock(ctx context.Context) error] *)
Definition IsLock (l : t) (ctx : Context) : M (option error * t) :=
  isLock l ctx.

(** [func (l *Lock) Release() error] *)
Definition Release (l : t) : M (option error * t) :=
  release l.

(** [func (l *Lock) Lock(ctx context.Context) error] *)
Definition Lock (l : t) (ctx : Context) : M (option error * t) :=
  match tx l with
  | None =>
      do r <- sqlx.BeginTxx (db l) ctx ;;
      match r with
      | inr err => ret (Some err, l)
      | inl tx =>
          let res := {| Succeed := false |} in
          do '(res, err) <- sqlx.GetContext tx ctx res
                              (pg_try_advisory_xact_lock (value l)) ;;
          match err with
          | Some _ =>
              do rollbackErr <- sqlx.Rollback tx ;;
              match rollbackErr with
              | Some e => ret (Wrap err (Error e), l)
              | None => ret (Wrap err "failed to get lock status", l)
              end
          | None =>
              if negb (Succeed res) then
                do rollbackErr <- sqlx.Rollback tx ;;
                match rollbackErr with
                | Some e => ret (Wrap err (Error e), l)
                | None => ret (Some dlock.ErrAcquiredLock, l)
                end
              else ret (None, set_tx (Some tx) l)
          end
      end
  | Some _ => isLock l ctx
  end.

End Lock.

(** [type DistributedLock struct { db *sqlx.DB }] *)
Module DistributedLock.

Record t : Type := mk { db : sqlx_DB }.

(** [func (dl *DistributedLock) New(value string) (dlock.Lock, error)] *)
Definition New (dl : t) (value : string) : option Lock.t * option error :=
  let '(hashedValue, err) := hash value in
  match err with
  | Some _ => (None, err)
  | None => (Some (Lock.mk (db dl) None hashedValue), None)
  end.

End DistributedLock.

(** A pointer to a Lock is a [dlock.Lock]: the handle, with the store its
    methods talk to, implements the interface. *)
#[export] Instance Lock_implements : dlock.Lock.t (Lock.t * DB) := {|
  dlock.Lock.Lock := fun ctx '(l, d) =>
    let '((err, l), d) := Lock.Lock l ctx d in (err, (l, d));
  dlock.Lock.IsLock := fun ctx '(l, d) =>
    let '((err, l), d) := Lock.IsLock l ctx d in (err, (l, d));
  dlock.Lock.Release := fun '(l, d) =>
    let '((err, l), d) := Lock.Release l d in (err, (l, d))
|}.

(** The end of a context leaves the handle alone; what it does to the
    store is [pg.ended]. *)
#[export] Instance Lock_ended : Ended (Lock.t * DB) :=
  fun c '(l, d) => (l, pg.ended c d).

End dlocksql.

(** ** Vocabulary of the statements *)

Import pg dlocksql.

(** The driver has no failure in store for the next [n] calls that get to
    it: made with a context that is not done, they reach the server. *)
Definition reliable (n : nat) (d : DB) : bool :=
  forallb (fun f => match f with None => true | Some _ => false end)
          (firstn n (script d)).

(** Transaction [t] is open and owns the advisory lock [key]. *)
Definition holds (t : Tx) (key : Z) (d : DB) : Prop :=
  alive t d = true /\ advisory d !! key = Some t.

(** The liveness probe of isLock, as sent in transaction [t]. *)
Definition probe (t : Tx) (ctx : Context) : M (dblock * option error) :=
  sqlx.GetContext t ctx {| Succeed := false |} select_true.

(** The try-acquire of Lock, as sent in transaction [t]. *)
Definition try_acquire (t : Tx) (ctx : Context) (key : Z) : M (dblock * option error) :=
  sqlx.GetContext t ctx {| Succeed := false |} (pg_try_advisory_xact_lock key).

(** A call of one of the exported methods of a handle. *)
Inductive method : Type :=
| method_Lock (ctx : Context)
| method_IsLock (ctx : Context)
| method_Release.

Definition invoke (m : method) (l : Lock.t) : M (option error * Lock.t) :=
  match m with
  | method_Lock ctx => Lock.Lock l ctx
  | method_IsLock ctx => Lock.IsLock l ctx
  | method_Release => Lock.Release l
  end.

(** The handle and the store after a sequence of calls through the handle. *)
Fixpoint invoke_all (ms : list method) (l : Lock.t) (d : DB) : Lock.t * DB :=
  match ms with
  | [] => (l, d)
  | m :: ms' => let '((_, l'), d') := invoke m l d in invoke_all ms' l' d'
  end.



(** Ticks taken by a loop before its select first fires on Done. *)
Fixpoint ticks_before_Done (sched : list dlock.selected) : nat :=
  match sched with
  | dlock.case_tick :: sched' => S (ticks_before_Done sched')
  | _ => 0
  end.

(** The setting of the repository's test of the lock: a factory, an empty
    store, two handles made for "mylock", and the first handle and the
    store once that handle has locked it. *)
Definition storage : DistributedLock.t := DistributedLock.mk 0%nat.

Definition empty_store : DB := mkDB [] ∅ [] [].

Definition mylock : Lock.t := Lock.mk 0%nat None (hash "mylock").1.

Definition myLock2 : Lock.t := Lock.mk 0%nat None (hash "mylock").1.

Definition differentlock : Lock.t := Lock.mk 0%nat None (hash "differentlock").1.

Definition mylock_locked : Lock.t :=
  (Lock.Lock mylock context_TODO empty_store).1.2.

Definition store_locked : DB :=
  (Lock.Lock mylock context_TODO empty_store).2.

(** The store with the failures [fs] in store for its next calls. *)
Definition with_script (fs : list (option string)) (d : DB) : DB :=
  mkDB (sessions d) (advisory d) fs (log d).

(** ** Vocabulary of the further properties *)

(** An error wrapped once for each message of [ms], the first message
    outermost: [Wrap(... Wrap(Wrap(err, m_n), m_n-1) ..., m_1)]. *)
Definition Wrap_all (ms : list string) (err : option error) : option error :=
  fold_right (fun m acc => Wrap acc m) err ms.

(** Unwrap applied [n] times. *)
Fixpoint Unwrap_n (n : nat) (err : option error) : option error :=
  match n with
  | O => err
  | S n' => Unwrap_n n' (Unwrap err)
  end.

(** Every advisory lock of the table is owned by a transaction that was
    begun. *)
Definition begun (d : DB) : Prop :=
  map_Forall (fun (_ : Z) (t : Tx) => (t < length (sessions d))%nat) (advisory d).

(** Several handles on one store.  One thing happens at a time: the owner
    of handle [i] makes one call through it, or the server ends a
    session. *)
Inductive action : Type :=
| act_call (i : nat) (m : method)
| act_terminate (t : Tx).

Definition act (a : action) (hs : list Lock.t) (d : DB) : list Lock.t * DB :=
  match a with
  | act_call i m =>
      match hs !! i with
      | Some l => let '((_, l'), d') := invoke m l d in (<[i := l']> hs, d')
      | None => (hs, d)
      end
  | act_terminate t => (hs, terminate t d)
  end.

Fixpoint acts (actions : list action) (hs : list Lock.t) (d : DB)
    : list Lock.t * DB :=
  match actions with
  | [] => (hs, d)
  | a :: rest => let '(hs', d') := act a hs d in acts rest hs' d'
  end.

(** What a step of the store may do to the sessions that exist: it ends
    none but those of [ended], revives none, and takes no advisory lock
    from a session it did not end. *)
Definition evolves (ended : Tx -> Prop) (d d' : DB) : Prop :=
  (length (sessions d) <= length (sessions d'))%nat /\
  (forall t, (t < length (sessions d))%nat -> alive t d' = true -> alive t d = true) /\
  (forall t k, ~ ended t -> holds t k d -> holds t k d').

(** The transactions a call through handle [l] may end on store [d]: the
    one the handle has, and the one it begins. *)
Definition may_end (l : Lock.t) (d : DB) (t : Tx) : Prop :=
  Lock.tx l = Some t \/ (length (sessions d) <= t)%nat.

(** What the handle has for transaction after a call: the one it had, with
    the sessions and the lock table untouched, or a new one that owns the
    key. *)
Definition tx_after (l l' : Lock.t) (d d' : DB) : Prop :=
  forall t', Lock.tx l' = Some t' ->
    (Lock.tx l = Some t' /\ sessions d' = sessions d /\ advisory d' = advisory d) \/
    (Lock.tx l = None /\ t' = length (sessions d) /\ holds t' (Lock.value l) d').

(** What holds of several handles on one store after any sequence of
    actions: the transaction of a handle was begun; no two handles have the
    same transaction; a handle whose session is open owns its key. *)
Definition consistent (hs : list Lock.t) (d : DB) : Prop :=
  (forall i l t, hs !! i = Some l -> Lock.tx l = Some t ->
     (t < length (sessions d))%nat) /\
  (forall i j li lj t, hs !! i = Some li -> hs !! j = Some lj ->
     Lock.tx li = Some t -> Lock.tx lj = Some t -> i = j) /\
  (forall i l t, hs !! i = Some l -> Lock.tx l = Some t ->
     alive t d = true -> advisory d !! Lock.value l = Some t).

(** Runs the primitives of the store on a symbolic state, by cases on the
    script, on the session and on the lock table. *)
Ltac store_cases :=
  unfold probe, try_acquire, sqlx.BeginTxx, sqlx.GetContext, sqlx.Rollback,
    sqlx.answer, bind, received, failure, ret, alive, end_session in *;
  simpl in *;
  repeat (case_match; simplify_eq/=); auto.

(** ** Checks of the embedding on known values *)

(** The published FNV-1a test vectors, as int64. *)
Example hash_empty : hash "" = (int64 14695981039346656037, None).
Proof. reflexivity. Qed.

Example hash_a : hash "a" = (int64 12638187200555641996, None).
Proof. reflexivity. Qed.

(** The message the test of WaitForLock looks for. *)
Example timeout_message :
  option_map Error (Wrap (Some context_DeadlineExceeded) "timeout to acquired lock")
  = Some "timeout to acquired lock: context deadline exceeded".
Proof. reflexivity. Qed.

(** The factory gives the two handles of the test, and the first one holds
    the key in transaction 0 once it has locked. *)
Example storage_New : DistributedLock.New storage "mylock" = (Some mylock, None).
Proof. reflexivity. Qed.

(** The repository's test of the lock, call by call, on a store that
    answers: the errors are the ones the test expects. *)
Example TestDLock_Backfill :
  let ctx := context_TODO in
  let '((e1, a), d) := Lock.Lock mylock ctx empty_store in
  let '((e2, b), d) := Lock.Lock myLock2 ctx d in
  let '((e3, a), d) := Lock.Lock a ctx d in
  let '((e4, c), d) := Lock.Lock differentlock ctx d in
  let '((e5, a), d) := Lock.Release a d in
  let '((e6, b), d) := Lock.Lock b ctx d in
  let '((e7, a), d) := Lock.Release a d in
  let '((e8, b), d) := Lock.Release b d in
  let '((e9, c), d) := Lock.Release c d in
  [e1; e2; e3; e4; e5; e6; e7; e8; e9]
  = [None; Some dlock.ErrAcquiredLock; None; None; None; None; None; None; None].
Proof. vm_compute. reflexivity. Qed.

(** The repository's test of WaitForLock: the first handle gets the lock
    at the first tick; the second, with a deadline of one second, times
    out with the message the test looks for; once the first handle has
    released, the second gets the lock at its first tick. *)
Example TestDLock_WaitForLock :
  let ctx := context_TODO in
  let '(r1, (a, d)) :=
    dlock.WaitForLock [dlock.case_tick] ctx context_Canceled (mylock, empty_store) in
  let '(r2, (b, d)) :=
    dlock.WaitForLock [dlock.case_tick; dlock.case_Done]
      (context_WithTimeout ctx 1000000000) context_DeadlineExceeded (myLock2, d) in
  let '((_, a), d) := Lock.Release a d in
  let '(r3, (b, d)) :=
    dlock.WaitForLock [dlock.case_tick]
      (context_WithTimeout ctx 5000000000) context_DeadlineExceeded (b, d) in
  (r1, option_map (option_map Error) r2, r3)
  = (Some None,
     Some (Some "timeout to acquired lock: context deadline exceeded"),
     Some None).
Proof. vm_compute. reflexivity. Qed.

(** The repository's test of ContextLock: two probes succeed, the caller
    releases, and the third probe fails and cancels the derived context. *)
Example TestDLock_ContextLock :
  let r :=
    dlock.ContextLock context_TODO (dlock.initial (mylock, empty_store) None) in
  let after :=
    dlock.run context_TODO r.2
      [dlock.ev_select dlock.case_tick; dlock.ev_select dlock.case_tick;
       dlock.ev_Release; dlock.ev_select dlock.case_tick] in
  r.1.2 = None /\
  option_map dlock.monitor after = Some dlock.Exited /\
  option_map dlock.newCtx_Err after = Some (Some context_Canceled) /\
  option_map dlock.probes after = Some 3%nat.
Proof. vm_compute. repeat split; reflexivity. Qed.

(** A session ended behind the client's back is noticed by the next
    IsLock, which leaves the handle Unlocked. *)
Example lease_loss_detected :
  let r := Lock.IsLock mylock_locked context_TODO (terminate 0%nat store_locked) in
  Lock.tx r.1.2 = None /\
  option_map Error r.1.1 = Some "driver: bad connection: failed to acquired lock".
Proof. vm_compute. split; reflexivity. Qed.

Example mylock_locked_holds :
  Lock.tx mylock_locked = Some 0%nat /\
  holds 0%nat (Lock.value mylock_locked) store_locked.
Proof. split; [reflexivity|]. split; vm_compute; reflexivity. Qed.

(** ** The store *)

Lemma error_eqb_refl (e : error) : error_eqb e e = true.
Proof.
  induction e as [s|s| | |m e IH]; simpl; try reflexivity;
    rewrite ?String.eqb_refl, ?IH; reflexivity.
Qed.

Lemma chain_has_refl (e : error) : chain_has e e = true.
Proof. destruct e; simpl; rewrite ?String.eqb_refl, ?error_eqb_refl; reflexivity. Qed.

Lemma Is_Wrap (e : error) (message : string) :
  Is (Wrap (Some e) message) (Some e) = true.
Proof.
  unfold Wrap, Errorf_s_w, Is. simpl chain_has.
  rewrite chain_has_refl. apply orb_true_r.
Qed.

(** A transaction that is open was begun: the next one differs from it. *)
Lemma alive_lt (t : Tx) (d : DB) : alive t d = true -> (t < length (sessions d))%nat.
Proof.
  unfold alive. destruct (sessions d !! t) as [s|] eqn:E; [|discriminate].
  intros _. eapply lookup_lt_Some; eassumption.
Qed.

(** Every call is logged before anything else happens to it. *)
Lemma GetContext_log (t : Tx) (ctx : Context) (dest : dblock) (q : query) (d : DB) :
  log (sqlx.GetContext t ctx dest q d).2 = (log d ++ [call_GetContext t q])%list.
Proof. store_cases. Qed.

Lemma Rollback_log (t : Tx) (d : DB) :
  log (sqlx.Rollback t d).2 = (log d ++ [call_Rollback t])%list.
Proof. store_cases. Qed.

(** A rollback that reports no error has closed the session. *)
Lemma Rollback_closes (t : Tx) (d : DB) :
  (sqlx.Rollback t d).1 = None -> alive t (sqlx.Rollback t d).2 = false.
Proof.
  unfold sqlx.Rollback, bind, received, failure, ret; simpl.
  destruct (script d) as [|[msg|] rest]; simpl; try discriminate;
    unfold alive at 1 3; simpl.
  - destruct (sessions d !! t) as [[|]|] eqn:E; simpl; try discriminate.
    intros _. unfold alive, end_session; simpl.
    rewrite list_lookup_insert_eq; [reflexivity|]. eapply lookup_lt_Some, E.
  - destruct (sessions d !! t) as [[|]|] eqn:E; simpl; try discriminate.
    intros _. unfold alive, end_session; simpl.
    rewrite list_lookup_insert_eq; [reflexivity|]. eapply lookup_lt_Some, E.
Qed.

(** The probe does not change what the server holds. *)
Lemma probe_sessions (t : Tx) (ctx : Context) (d : DB) :
  sessions (probe t ctx d).2 = sessions d /\ advisory (probe t ctx d).2 = advisory d.
Proof. store_cases. Qed.

(** ** Release *)

(** Release on a Locked handle is the rollback of its transaction. *)
Lemma Release_locked (l : Lock.t) (d : DB) (t : Tx) :
  Lock.tx l = Some t ->
  Lock.Release l d
  = (((sqlx.Rollback t d).1, Lock.set_tx None l), (sqlx.Rollback t d).2).
Proof.
  intros E. unfold Lock.Release, Lock.release, bind, ret. rewrite E.
  destruct (sqlx.Rollback t d); reflexivity.
Qed.

(** C3. Release on an Unlocked handle does nothing and returns nil.  On a
    Locked handle it rolls the transaction back, returns the error of the
    rollback, whatever it is, and leaves the handle Unlocked in every case;
    so Release right after Release returns nil and changes nothing. *)
Theorem Release_idempotent (l : Lock.t) (d : DB) :
  let r := Lock.Release l d in
  (Lock.tx l = None -> r = ((None, l), d)) /\
  (forall t, Lock.tx l = Some t ->
     r = (((sqlx.Rollback t d).1, Lock.set_tx None l), (sqlx.Rollback t d).2)) /\
  Lock.tx r.1.2 = None /\
  Lock.Release r.1.2 r.2 = ((None, r.1.2), r.2).
Proof.
  cbv zeta. unfold Lock.Release, Lock.release.
  destruct (Lock.tx l) as [t|] eqn:E.
  - unfold bind, ret. destruct (sqlx.Rollback t d) as [err d'] eqn:R; simpl.
    repeat split; try discriminate.
    intros t' [= <-]. rewrite R. reflexivity.
  - unfold ret; simpl. rewrite E. repeat split; try discriminate.
Qed.

(** ** IsLock *)

(** The three ways through isLock. *)
Lemma isLock_unlocked (l : Lock.t) (ctx : Context) (d : DB) :
  Lock.tx l = None ->
  Lock.isLock l ctx d
  = ((Wrap (Some dlock.ErrAcquiredLock) "does not lock the ressource", l), d).
Proof. intros E. unfold Lock.isLock. rewrite E. reflexivity. Qed.

Lemma isLock_alive (l : Lock.t) (ctx : Context) (d d1 : DB) (t : Tx) (res : dblock) :
  Lock.tx l = Some t ->
  probe t ctx d = ((res, None), d1) ->
  Lock.isLock l ctx d = ((None, l), d1).
Proof.
  intros E P. unfold Lock.isLock. rewrite E. fold (probe t ctx).
  unfold bind. rewrite P. reflexivity.
Qed.

Lemma isLock_lost (l : Lock.t) (ctx : Context) (d d1 d2 : DB) (t : Tx)
    (res : dblock) (e : error) (rollbackErr : option error) :
  Lock.tx l = Some t ->
  probe t ctx d = ((res, Some e), d1) ->
  sqlx.Rollback t d1 = (rollbackErr, d2) ->
  Lock.isLock l ctx d
  = ((match rollbackErr with
      | Some e' => Wrap (Some dlock.ErrAcquiredLock) (Error e')
      | None => Some dlock.ErrAcquiredLock
      end, Lock.set_tx None l), d2).
Proof.
  intros E P R. unfold Lock.isLock, Lock.release. rewrite E. fold (probe t ctx).
  unfold bind. rewrite P, R. destruct rollbackErr; reflexivity.
Qed.

(** C4. IsLock returns nil exactly when the handle has a transaction and
    the probe sent in it succeeds, and then the handle is as it was.  When
    the probe fails, the transaction is rolled back (the rollback is the
    call that follows the probe, and when it reports no error the session
    is closed), the handle is Unlocked, and the error is ErrAcquiredLock or
    wraps it.  Without a transaction nothing is sent to the store and the
    error is ErrAcquiredLock wrapped with the text that the resource is not
    locked. *)
Theorem IsLock_contract (l : Lock.t) (ctx : Context) (d : DB) :
  let r := Lock.IsLock l ctx d in
  (r.1.1 = None <->
     exists t, Lock.tx l = Some t /\ (probe t ctx d).1.2 = None) /\
  (r.1.1 = None -> r.1.2 = l) /\
  (forall t, Lock.tx l = Some t -> (probe t ctx d).1.2 <> None ->
     Lock.tx r.1.2 = None /\
     Is r.1.1 (Some dlock.ErrAcquiredLock) = true /\
     log r.2 = (log d ++ [call_GetContext t select_true; call_Rollback t])%list /\
     ((sqlx.Rollback t (probe t ctx d).2).1 = None -> alive t r.2 = false)) /\
  (Lock.tx l = None ->
     r = ((Wrap (Some dlock.ErrAcquiredLock) "does not lock the ressource", l), d) /\
     option_map Error r.1.1
       = Some "does not lock the ressource: failed to acquired lock").
Proof.
  cbv zeta. unfold Lock.IsLock.
  destruct (Lock.tx l) as [t|] eqn:E.
  - destruct (probe t ctx d) as [[res [e|]] d1] eqn:P.
    + destruct (sqlx.Rollback t d1) as [rb d2] eqn:R.
      rewrite (isLock_lost l ctx d d1 d2 t res e rb E P R). cbn [fst snd].
      assert (HL : log d2 = (log d ++ [call_GetContext t select_true; call_Rollback t])%list).
      { replace d2 with (sqlx.Rollback t d1).2 by (rewrite R; reflexivity).
        rewrite Rollback_log.
        replace d1 with (probe t ctx d).2 by (rewrite P; reflexivity).
        unfold probe. rewrite GetContext_log, <- app_assoc. reflexivity. }
      assert (HR : Is (match rb with
                       | Some e' => Wrap (Some dlock.ErrAcquiredLock) (Error e')
                       | None => Some dlock.ErrAcquiredLock
                       end) (Some dlock.ErrAcquiredLock) = true).
      { destruct rb; [apply Is_Wrap | reflexivity]. }
      split; [split|].
      * destruct rb; discriminate.
      * intros (t' & [= <-] & H). rewrite P in H. discriminate.
      * split; [destruct rb; discriminate|].
        split; [|discriminate].
        intros t' [= <-] _. repeat split; auto.
        rewrite P. cbn [fst snd]. intros H.
        pose proof (Rollback_closes t d1) as HC.
        rewrite R in HC. rewrite R in H. apply HC, H.
    + rewrite (isLock_alive l ctx d d1 t res E P). cbn [fst snd].
      split; [split; [|reflexivity]|].
      * intros _. exists t. rewrite P. auto.
      * split; [reflexivity|]. split; [|discriminate].
        intros t' [= <-] H. rewrite P in H. cbn in H. congruence.
  - rewrite (isLock_unlocked l ctx d E). cbn [fst snd].
    split; [split; [discriminate|]|].
    + intros (t' & H & _). discriminate.
    + split; [discriminate|]. split; [intros t' H; discriminate|].
      intros _. split; reflexivity.
Qed.

(** ** Lock *)

(** The ways through Lock. *)
Lemma Lock_relock (l : Lock.t) (ctx : Context) (d : DB) (t : Tx) :
  Lock.tx l = Some t -> Lock.Lock l ctx d = Lock.isLock l ctx d.
Proof. intros E. unfold Lock.Lock. rewrite E. reflexivity. Qed.

Lemma Lock_begin_fails (l : Lock.t) (ctx : Context) (d d1 : DB) (e : error) :
  Lock.tx l = None ->
  sqlx.BeginTxx (Lock.db l) ctx d = (inr e, d1) ->
  Lock.Lock l ctx d = ((Some e, l), d1).
Proof. intros E B. unfold Lock.Lock, bind. rewrite E, B. reflexivity. Qed.

Lemma Lock_query_fails (l : Lock.t) (ctx : Context) (d d1 d2 d3 : DB) (t : Tx)
    (res : dblock) (e : error) (rollbackErr : option error) :
  Lock.tx l = None ->
  sqlx.BeginTxx (Lock.db l) ctx d = (inl t, d1) ->
  try_acquire t ctx (Lock.value l) d1 = ((res, Some e), d2) ->
  sqlx.Rollback t d2 = (rollbackErr, d3) ->
  Lock.Lock l ctx d
  = ((match rollbackErr with
      | Some e' => Wrap (Some e) (Error e')
      | None => Wrap (Some e) "failed to get lock status"
      end, l), d3).
Proof.
  intros E B Q R. unfold Lock.Lock. rewrite E.
  fold (try_acquire t ctx (Lock.value l)). unfold bind. rewrite B.
  fold (try_acquire t ctx (Lock.value l)). rewrite Q, R.
  destruct rollbackErr; reflexivity.
Qed.

Lemma Lock_contended (l : Lock.t) (ctx : Context) (d d1 d2 d3 : DB) (t : Tx)
    (res : dblock) (rollbackErr : option error) :
  Lock.tx l = None ->
  sqlx.BeginTxx (Lock.db l) ctx d = (inl t, d1) ->
  try_acquire t ctx (Lock.value l) d1 = ((res, None), d2) ->
  Succeed res = false ->
  sqlx.Rollback t d2 = (rollbackErr, d3) ->
  Lock.Lock l ctx d
  = ((match rollbackErr with
      | Some e' => Wrap None (Error e')
      | None => Some dlock.ErrAcquiredLock
      end, l), d3).
Proof.
  intros E B Q S R. unfold Lock.Lock. rewrite E. unfold bind. rewrite B.
  fold (try_acquire t ctx (Lock.value l)). rewrite Q, S. cbn [negb].
  rewrite R. destruct rollbackErr; reflexivity.
Qed.

Lemma Lock_acquired (l : Lock.t) (ctx : Context) (d d1 d2 : DB) (t : Tx)
    (res : dblock) :
  Lock.tx l = None ->
  sqlx.BeginTxx (Lock.db l) ctx d = (inl t, d1) ->
  try_acquire t ctx (Lock.value l) d1 = ((res, None), d2) ->
  Succeed res = true ->
  Lock.Lock l ctx d = ((None, Lock.set_tx (Some t) l), d2).
Proof.
  intros E B Q S. unfold Lock.Lock. rewrite E. unfold bind. rewrite B.
  fold (try_acquire t ctx (Lock.value l)). rewrite Q, S. reflexivity.
Qed.

(** ** What the primitives do to the store *)

Lemma reliable_head (n : nat) (d : DB) :
  reliable (S n) d = true -> script d = [] \/ exists rest, script d = None :: rest.
Proof.
  unfold reliable. destruct (script d) as [|[msg|] rest]; simpl; eauto.
  discriminate.
Qed.

Lemma reliable_tail (n : nat) (d d' : DB) :
  reliable (S n) d = true -> script d' = tail (script d) -> reliable n d' = true.
Proof.
  unfold reliable. intros H ->. destruct (script d) as [|[msg|] rest]; simpl in *.
  - destruct n; reflexivity.
  - discriminate.
  - exact H.
Qed.

Lemma BeginTxx_script (db : sqlx_DB) (ctx : Context) (d : DB) :
  context_Err ctx = None ->
  script (sqlx.BeginTxx db ctx d).2 = tail (script d).
Proof. intros L. store_cases. Qed.

Lemma GetContext_script (t : Tx) (ctx : Context) (dest : dblock) (q : query) (d : DB) :
  context_Err ctx = None ->
  script (sqlx.GetContext t ctx dest q d).2 = tail (script d).
Proof. intros L. store_cases. Qed.

Lemma Rollback_script (t : Tx) (d : DB) :
  script (sqlx.Rollback t d).2 = tail (script d).
Proof. store_cases. Qed.

Lemma BeginTxx_log (db : sqlx_DB) (ctx : Context) (d : DB) :
  log (sqlx.BeginTxx db ctx d).2 = (log d ++ [call_BeginTxx])%list.
Proof. store_cases. Qed.

(** A transaction that was begun is new, open, and owns nothing yet. *)
Lemma BeginTxx_inl (db : sqlx_DB) (ctx : Context) (d d1 : DB) (t : Tx) :
  sqlx.BeginTxx db ctx d = (inl t, d1) ->
  t = length (sessions d) /\ sessions d1 = (sessions d ++ [Open ctx])%list /\
  advisory d1 = advisory d /\ alive t d1 = true.
Proof.
  unfold sqlx.BeginTxx, bind, received, failure, ret; simpl.
  destruct (context_Err ctx); [intros H; simplify_eq/=|].
  destruct (script d) as [|[msg|] rest]; intros H; simplify_eq/=;
    (repeat split; unfold alive; simpl;
     rewrite lookup_app_r, Nat.sub_diag by lia; reflexivity).
Qed.

(** A transaction that could not be begun leaves the server as it was. *)
Lemma BeginTxx_inr (db : sqlx_DB) (ctx : Context) (d d1 : DB) (e : error) :
  sqlx.BeginTxx db ctx d = (inr e, d1) ->
  sessions d1 = sessions d /\ advisory d1 = advisory d /\
  (context_Err ctx = Some e \/
   context_Err ctx = None /\
   exists msg rest, script d = Some msg :: rest /\ e = sql_Error msg).
Proof.
  unfold sqlx.BeginTxx, bind, received, failure, ret; simpl.
  destruct (context_Err ctx); [intros H; simplify_eq/=; auto|].
  destruct (script d) as [|[msg|] rest]; intros H; simplify_eq/=.
  repeat split. right. eauto.
Qed.

Lemma BeginTxx_reliable (n : nat) (db : sqlx_DB) (ctx : Context) (d : DB) :
  context_Err ctx = None ->
  reliable (S n) d = true ->
  (sqlx.BeginTxx db ctx d).1 = inl (length (sessions d)).
Proof. intros L [H|[rest H]]%reliable_head; store_cases. Qed.

(** No statement of the lock takes an advisory lock from its owner or ends
    a session. *)
Lemma GetContext_holds (t t' : Tx) (ctx : Context) (dest : dblock) (q : query)
    (key : Z) (d : DB) :
  holds t key d -> holds t key (sqlx.GetContext t' ctx dest q d).2.
Proof.
  intros [Ha Ho]. unfold holds in *. store_cases.
  all: split; [reflexivity|].
  all: rewrite lookup_insert_ne; [assumption|congruence].
Qed.

Lemma GetContext_reliable (n : nat) (t : Tx) (ctx : Context) (dest : dblock)
    (q : query) (d : DB) :
  context_Err ctx = None ->
  reliable (S n) d = true -> alive t d = true ->
  (sqlx.GetContext t ctx dest q d).1.2 = None /\
  alive t (sqlx.GetContext t ctx dest q d).2 = true.
Proof. intros L [H|[rest H]]%reliable_head A; store_cases. Qed.

(** The try-acquire of another transaction on a key that is held fails,
    and fails at once. *)
Lemma try_acquire_held (t t' : Tx) (ctx : Context) (key : Z) (d d' : DB)
    (res : dblock) :
  holds t key d -> t' <> t ->
  try_acquire t' ctx key d = ((res, None), d') ->
  Succeed res = false.
Proof.
  intros [Ha Ho] Hne H. store_cases.
  all: apply bool_decide_eq_false_2; congruence.
Qed.

(** The rollback of another transaction leaves the owner its lock. *)
Lemma Rollback_holds (t t' : Tx) (key : Z) (d : DB) :
  holds t key d -> t' <> t -> holds t key (sqlx.Rollback t' d).2.
Proof.
  intros [Ha Ho] Hne.
  assert (Hf : filter (fun kv : Z * Tx => kv.2 <> t') (advisory d) !! key = Some t).
  { apply map_lookup_filter_Some. split; [assumption|]. simpl. congruence. }
  assert (Hs : alive t (end_session t' d) = true).
  { unfold alive, end_session in *; simpl.
    rewrite list_lookup_insert_ne by congruence. exact Ha. }
  unfold holds, sqlx.Rollback, bind, received, failure, ret; simpl.
  destruct (script d) as [|[msg|] rest]; simpl;
    unfold alive, end_session in *; simpl in *;
    destruct (sessions d !! t') as [[|]|]; simpl; split; assumption.
Qed.

Lemma Rollback_reliable (n : nat) (t : Tx) (d : DB) :
  reliable (S n) d = true -> alive t d = true -> (sqlx.Rollback t d).1 = None.
Proof. intros [H|[rest H]]%reliable_head A; store_cases. Qed.

(** The rollback of the owner frees the key. *)
Lemma Rollback_frees (n : nat) (t : Tx) (key : Z) (d : DB) :
  reliable (S n) d = true -> holds t key d ->
  (sqlx.Rollback t d).1 = None /\ advisory (sqlx.Rollback t d).2 !! key = None.
Proof.
  intros R [Ha Ho]. split; [eapply Rollback_reliable; eauto|].
  assert (Hf : filter (fun kv : Z * Tx => kv.2 <> t) (advisory d) !! key = None).
  { apply map_lookup_filter_None. right. intros x Hx. simpl.
    rewrite Ho in Hx. injection Hx as <-. auto. }
  apply reliable_head in R as [H|[rest H]];
    unfold sqlx.Rollback, bind, received, failure, ret, end_session; simpl;
    rewrite H; simpl; unfold alive in *; simpl;
    destruct (sessions d !! t) as [[|]|]; try discriminate; exact Hf.
Qed.

(** ** Lock on an Unlocked handle, contended *)

(** C2, at the input where the code departs from it.  The second handle
    calls Lock while the first holds the key; the session opens, the
    try-acquire runs and answers false, and the rollback of the session
    fails.  Lock then returns nil, not ErrAcquiredLock: the error it wraps
    with the text of the rollback error is the nil error of the
    try-acquire.  The handle stays Unlocked and the first handle keeps the
    key. *)
Theorem Lock_contended_rollback_error :
  let d := with_script [None; None; Some "connection reset by peer"] store_locked in
  let r := Lock.Lock myLock2 context_TODO d in
  Lock.tx myLock2 = None /\
  (try_acquire 1%nat context_TODO (Lock.value myLock2)
     (sqlx.BeginTxx 0%nat context_TODO d).2).1 = ({| Succeed := false |}, None) /\
  (sqlx.Rollback 1%nat
     (try_acquire 1%nat context_TODO (Lock.value myLock2)
        (sqlx.BeginTxx 0%nat context_TODO d).2).2).1
    = Some (sql_Error "connection reset by peer") /\
  r.1.1 = None /\
  Lock.tx r.1.2 = None /\
  advisory r.2 !! Lock.value myLock2 = Some 0%nat.
Proof. cbv zeta. repeat split; vm_compute; reflexivity. Qed.

(** The same departure on every store: whenever the try-acquire answers
    false and the rollback then fails, Lock returns nil. *)
Lemma Lock_contended_nil (l : Lock.t) (ctx : Context) (d d1 d2 d3 : DB) (t : Tx)
    (res : dblock) (e : error) :
  Lock.tx l = None ->
  sqlx.BeginTxx (Lock.db l) ctx d = (inl t, d1) ->
  try_acquire t ctx (Lock.value l) d1 = ((res, None), d2) ->
  Succeed res = false ->
  sqlx.Rollback t d2 = (Some e, d3) ->
  Lock.Lock l ctx d = ((None, l), d3).
Proof. intros E B Q S R. rewrite (Lock_contended _ _ _ _ _ _ _ _ _ E B Q S R). reflexivity. Qed.

(** With a rollback that succeeds, the contended Lock is as C2 says. *)
Lemma Lock_contended_AlreadyHeld (l : Lock.t) (ctx : Context) (d d1 d2 d3 : DB)
    (t : Tx) (res : dblock) :
  Lock.tx l = None ->
  sqlx.BeginTxx (Lock.db l) ctx d = (inl t, d1) ->
  try_acquire t ctx (Lock.value l) d1 = ((res, None), d2) ->
  Succeed res = false ->
  sqlx.Rollback t d2 = (None, d3) ->
  Lock.Lock l ctx d = ((Some dlock.ErrAcquiredLock, l), d3).
Proof. intros E B Q S R. rewrite (Lock_contended _ _ _ _ _ _ _ _ _ E B Q S R). reflexivity. Qed.

(** ** Lock on a Locked handle *)

(** Against C5 as stated.  The first handle holds the key, its session is
    open, and the probe of its next Lock fails (the driver gives up on
    it).  The rollback that follows succeeds, and the error returned is
    ErrAcquiredLock itself: it wraps nothing, and its text says nothing of
    the store. *)
Lemma Lock_reentrant_bare_error :
  let d := with_script [Some "i/o timeout"] store_locked in
  let r := Lock.Lock mylock_locked context_TODO d in
  Lock.tx mylock_locked = Some 0%nat /\
  (probe 0%nat context_TODO d).1.2 = Some (sql_Error "i/o timeout") /\
  r.1.1 = Some dlock.ErrAcquiredLock /\
  Unwrap r.1.1 = None /\
  option_map Error r.1.1 = Some "failed to acquired lock" /\
  Lock.tx r.1.2 = None.
Proof. cbv zeta. repeat split; vm_compute; reflexivity. Qed.

(** C5, amended.  Lock on a Locked handle sends the probe and nothing else
    before it: no session is begun and no try-acquire is sent.  When the
    probe succeeds Lock returns nil and the handle is as it was.  When the
    probe fails, the only further call is the rollback of the handle's
    transaction (there is no second attempt), the handle is Unlocked, and
    the error is ErrAcquiredLock: bare when the rollback succeeds, wrapped
    with the text of the rollback error when the rollback fails. *)
Theorem Lock_reentrant (l : Lock.t) (ctx : Context) (d : DB) (t : Tx) :
  Lock.tx l = Some t ->
  let r := Lock.Lock l ctx d in
  let p := probe t ctx d in
  length (sessions r.2) = length (sessions d) /\
  (p.1.2 = None ->
     r = ((None, l), p.2) /\
     log r.2 = (log d ++ [call_GetContext t select_true])%list) /\
  (p.1.2 <> None ->
     Lock.tx r.1.2 = None /\
     log r.2 = (log d ++ [call_GetContext t select_true; call_Rollback t])%list /\
     r.1.1 = match (sqlx.Rollback t p.2).1 with
             | Some e' => Wrap (Some dlock.ErrAcquiredLock) (Error e')
             | None => Some dlock.ErrAcquiredLock
             end /\
     Is r.1.1 (Some dlock.ErrAcquiredLock) = true).
Proof.
  intros E. cbv zeta. rewrite (Lock_relock l ctx d t E).
  pose proof (GetContext_log t ctx {| Succeed := false |} select_true d) as HP.
  fold (probe t ctx) in HP.
  pose proof (probe_sessions t ctx d) as [HS _].
  destruct (probe t ctx d) as [[res [e|]] d1] eqn:P; cbn [fst snd] in *.
  - pose proof (Rollback_log t d1) as HL.
    assert (HS2 : length (sessions (sqlx.Rollback t d1).2) = length (sessions d1)).
    { clear. store_cases; apply length_insert. }
    destruct (sqlx.Rollback t d1) as [rb d2] eqn:R; cbn [fst snd] in *.
    rewrite (isLock_lost l ctx d d1 d2 t res e rb E P R). cbn [fst snd].
    split; [congruence|]. split; [discriminate|]. intros _.
    repeat split.
    + rewrite HL, HP, <- app_assoc. reflexivity.
    + destruct rb; [apply Is_Wrap | reflexivity].
  - rewrite (isLock_alive l ctx d d1 t res E P). cbn [fst snd].
    split; [congruence|]. split; [|congruence]. intros _. split; [reflexivity|].
    exact HP.
Qed.

(** C5 at the first handle of the test, with an open session: Lock again
    returns nil and begins nothing. *)
Lemma Lock_reentrant_witness :
  Lock.tx mylock_locked = Some 0%nat /\
  (Lock.Lock mylock_locked context_TODO store_locked).1 = (None, mylock_locked) /\
  length (sessions (Lock.Lock mylock_locked context_TODO store_locked).2) = 1%nat.
Proof.
  split; [reflexivity|].
  destruct (Lock_reentrant mylock_locked context_TODO store_locked 0%nat eq_refl)
    as (Hs & Hok & _).
  split.
  - destruct (Hok eq_refl) as [-> _]. reflexivity.
  - rewrite Hs. reflexivity.
Defined.

(** ** Two handles on one name *)

Lemma holds_frame (t : Tx) (key : Z) (d d' : DB) :
  sessions d' = sessions d -> advisory d' = advisory d ->
  holds t key d -> holds t key d'.
Proof. unfold holds, alive. intros -> ->. auto. Qed.

Lemma BeginTxx_holds (t : Tx) (key : Z) (db : sqlx_DB) (ctx : Context) (d : DB) :
  holds t key d -> holds t key (sqlx.BeginTxx db ctx d).2.
Proof.
  intros [Ha Ho]. destruct (sqlx.BeginTxx db ctx d) as [[t'|e] d1] eqn:B; simpl.
  - apply BeginTxx_inl in B as (_ & Hs & Hadv & _).
    unfold holds, alive in *. rewrite Hs, Hadv. split; [|assumption].
    destruct (sessions d !! t) as [s|] eqn:E; [|discriminate].
    rewrite (lookup_app_l_Some _ _ _ _ E). assumption.
  - apply BeginTxx_inr in B as (Hs & Hadv & _).
    eapply holds_frame; eauto. split; assumption.
Qed.

Lemma BeginTxx_fails (db : sqlx_DB) (ctx : Context) (d : DB) (msg : string)
    (rest : list (option string)) :
  context_Err ctx = None ->
  script d = Some msg :: rest ->
  (sqlx.BeginTxx db ctx d).1 = inr (sql_Error msg).
Proof. intros L H. store_cases. Qed.

Lemma GetContext_fails (t : Tx) (ctx : Context) (dest : dblock) (q : query)
    (d : DB) (msg : string) (rest : list (option string)) :
  context_Err ctx = None ->
  script d = Some msg :: rest ->
  (sqlx.GetContext t ctx dest q d).1.2 = Some (sql_Error msg).
Proof. intros L H. store_cases. Qed.

(** A call made with a context that is done fails with the error of the
    context, and nothing of it reaches the driver or the server. *)
Lemma BeginTxx_done (db : sqlx_DB) (ctx : Context) (d : DB) (e : error) :
  context_Err ctx = Some e ->
  sqlx.BeginTxx db ctx d
  = (inr e, mkDB (sessions d) (advisory d) (script d) (log d ++ [call_BeginTxx])).
Proof.
  intros L. unfold sqlx.BeginTxx, bind, received, ret. rewrite L. reflexivity.
Qed.

Lemma GetContext_done (t : Tx) (ctx : Context) (dest : dblock) (q : query)
    (d : DB) (e : error) :
  context_Err ctx = Some e ->
  sqlx.GetContext t ctx dest q d
  = ((dest, Some e),
     mkDB (sessions d) (advisory d) (script d) (log d ++ [call_GetContext t q])).
Proof.
  intros L. unfold sqlx.GetContext, bind, received, ret. rewrite L. reflexivity.
Qed.

(** Lock on an Unlocked handle with a context that is done: the error is
    the context's, and no session is begun. *)
Lemma Lock_done (l : Lock.t) (ctx : Context) (d : DB) (e : error) :
  Lock.tx l = None -> context_Err ctx = Some e ->
  Lock.Lock l ctx d
  = ((Some e, l),
     mkDB (sessions d) (advisory d) (script d) (log d ++ [call_BeginTxx])).
Proof.
  intros E L. apply Lock_begin_fails; [exact E|]. apply BeginTxx_done, L.
Qed.

(** The try-acquire of an open transaction on a free key takes the key. *)
Lemma try_acquire_free (n : nat) (t : Tx) (ctx : Context) (key : Z) (d : DB) :
  context_Err ctx = None ->
  reliable (S n) d = true -> alive t d = true -> advisory d !! key = None ->
  (try_acquire t ctx key d).1 = ({| Succeed := true |}, None) /\
  holds t key (try_acquire t ctx key d).2.
Proof.
  intros L [H|[rest H]]%reliable_head A F; unfold holds; store_cases;
    rewrite lookup_insert_eq; auto.
Qed.

(** Lock on a free key, with a context that is not done and a store that
    answers, acquires it. *)
Lemma Lock_free (l : Lock.t) (ctx : Context) (d : DB) :
  context_Err ctx = None ->
  Lock.tx l = None -> advisory d !! Lock.value l = None ->
  reliable 2 d = true ->
  (Lock.Lock l ctx d).1.1 = None /\
  exists t, Lock.tx (Lock.Lock l ctx d).1.2 = Some t /\
            holds t (Lock.value l) (Lock.Lock l ctx d).2.
Proof.
  intros L E Hfree Hr.
  pose proof (BeginTxx_reliable 1 (Lock.db l) ctx d L Hr) as Hb.
  pose proof (reliable_tail 1 d _ Hr (BeginTxx_script (Lock.db l) ctx d L)) as Hr2.
  destruct (sqlx.BeginTxx (Lock.db l) ctx d) as [[t|e] d1] eqn:B;
    cbn [fst snd] in *; [|discriminate].
  pose proof (BeginTxx_inl _ _ _ _ _ B) as (_ & _ & Hadv & Hal).
  rewrite <- Hadv in Hfree.
  destruct (try_acquire_free 0 t ctx _ d1 L Hr2 Hal Hfree) as [Hq Hh].
  destruct (try_acquire t ctx (Lock.value l) d1) as [[res err] d2] eqn:Q;
    cbn [fst snd] in *. injection Hq as -> ->.
  rewrite (Lock_acquired _ _ _ _ _ _ _ E B Q eq_refl). cbn [fst snd].
  split; [reflexivity|]. exists t. split; [reflexivity|]. exact Hh.
Qed.

(** Against C1 as stated.  The first handle of the test holds "mylock" in
    an open session; the second handle, made for the same name, calls Lock
    and the store refuses to open a session.  Lock fails, but with the
    error of the store, which is not ErrAcquiredLock and does not wrap
    it. *)
Lemma Lock_held_store_failure :
  let d := with_script [Some "connection refused"] store_locked in
  let r := Lock.Lock myLock2 context_TODO d in
  (DistributedLock.New storage "mylock").1 = Some myLock2 /\
  Lock.value mylock_locked = Lock.value myLock2 /\
  Lock.tx mylock_locked = Some 0%nat /\
  holds 0%nat (Lock.value mylock_locked) d /\
  Lock.tx myLock2 = None /\
  r.1.1 = Some (sql_Error "connection refused") /\
  Is r.1.1 (Some dlock.ErrAcquiredLock) = false.
Proof.
  cbv zeta. repeat split; try reflexivity; vm_compute; reflexivity.
Qed.

(** C1, amended.  Handle [a] is Locked on [name] and its session is open
    and owns the key; handle [b], any Unlocked handle for the same name,
    calls Lock.  Whatever the store does and whatever the context, [b]
    stays Unlocked and [a] still owns the key afterwards, so this holds
    for every further attempt while [a] has not released.  When the store
    answers the three calls of the attempt, Lock fails with
    ErrAcquiredLock; when the session cannot be opened Lock fails with the
    error BeginTxx gave (the error of the store or, with a context that is
    already done, the error of the context, and then nothing was sent),
    and when the try-acquire itself fails, with an error that wraps the
    error of the store.  Once [a] has released, with a store that
    answers, the Lock of [b] returns nil and [b] owns the key.  Nothing of
    this depends on [a] and [b] sharing anything but the key and the
    store. *)
Theorem mutual_exclusion (name : string) (a b : Lock.t) (ta : Tx)
    (ctx : Context) (d : DB) :
  Lock.value a = (hash name).1 -> Lock.value b = (hash name).1 ->
  Lock.tx a = Some ta -> holds ta (Lock.value a) d ->
  Lock.tx b = None ->
  let r := Lock.Lock b ctx d in
  let released := Lock.Release a d in
  let r' := Lock.Lock b ctx released.2 in
  Lock.tx r.1.2 = None /\
  holds ta (Lock.value a) r.2 /\
  (context_Err ctx = None -> reliable 3 d = true ->
     r.1.1 = Some dlock.ErrAcquiredLock) /\
  (context_Err ctx = None -> forall msg rest, script d = Some msg :: rest ->
     r.1.1 = Some (sql_Error msg)) /\
  (forall e, context_Err ctx = Some e ->
     r.1 = (Some e, b) /\ sessions r.2 = sessions d /\
     advisory r.2 = advisory d /\ script r.2 = script d /\
     log r.2 = (log d ++ [call_BeginTxx])%list) /\
  (context_Err ctx = None ->
   forall msg rest, script d = None :: Some msg :: rest ->
     Is r.1.1 (Some (sql_Error msg)) = true) /\
  (context_Err ctx = None -> reliable 3 d = true ->
     released.1.1 = None /\ r'.1.1 = None /\
     exists tb, Lock.tx r'.1.2 = Some tb /\ holds tb (Lock.value b) r'.2).
Proof.
  intros Ka Kb Ea Hh Eb. cbv zeta.
  assert (Kab : Lock.value b = Lock.value a) by congruence.
  split; [|split; [|split; [|split; [|split; [|split]]]]].
  - (* b stays Unlocked *)
    destruct (sqlx.BeginTxx (Lock.db b) ctx d) as [[tb|e] d1] eqn:B.
    + destruct (try_acquire tb ctx (Lock.value b) d1) as [[res [e|]] d2] eqn:Q.
      * destruct (sqlx.Rollback tb d2) as [rb d3] eqn:R.
        rewrite (Lock_query_fails _ _ _ _ _ _ _ _ _ _ Eb B Q R). exact Eb.
      * destruct (Succeed res) eqn:S.
        -- exfalso. pose proof (BeginTxx_holds ta _ (Lock.db b) ctx d Hh) as H1.
           rewrite B in H1. cbn [snd] in H1.
           apply BeginTxx_inl in B as (-> & _).
           assert (Hne : length (sessions d) <> ta).
           { destruct Hh as [Ha _]. apply alive_lt in Ha. lia. }
           rewrite Kab in Q.
           rewrite (try_acquire_held _ _ _ _ _ _ _ H1 Hne Q) in S. discriminate.
        -- destruct (sqlx.Rollback tb d2) as [rb d3] eqn:R.
           rewrite (Lock_contended _ _ _ _ _ _ _ _ _ Eb B Q S R). exact Eb.
    + rewrite (Lock_begin_fails _ _ _ _ _ Eb B). exact Eb.
  - (* a keeps the key *)
    pose proof (BeginTxx_holds ta _ (Lock.db b) ctx d Hh) as H1.
    destruct (sqlx.BeginTxx (Lock.db b) ctx d) as [[tb|e] d1] eqn:B;
      cbn [snd] in H1.
    + assert (Hne : tb <> ta).
      { apply BeginTxx_inl in B as (-> & _).
        destruct Hh as [Ha _]. apply alive_lt in Ha. lia. }
      pose proof (GetContext_holds ta tb ctx {| Succeed := false |}
                    (pg_try_advisory_xact_lock (Lock.value b)) _ d1 H1) as H2.
      fold (try_acquire tb ctx (Lock.value b)) in H2.
      destruct (try_acquire tb ctx (Lock.value b) d1) as [[res [e|]] d2] eqn:Q;
        cbn [snd] in H2.
      * pose proof (Rollback_holds ta tb _ d2 H2 Hne) as H3.
        destruct (sqlx.Rollback tb d2) as [rb d3] eqn:R.
        rewrite (Lock_query_fails _ _ _ _ _ _ _ _ _ _ Eb B Q R). exact H3.
      * assert (S : Succeed res = false).
        { rewrite Kab in Q. exact (try_acquire_held _ _ _ _ _ _ _ H1 Hne Q). }
        pose proof (Rollback_holds ta tb _ d2 H2 Hne) as H3.
        destruct (sqlx.Rollback tb d2) as [rb d3] eqn:R.
        rewrite (Lock_contended _ _ _ _ _ _ _ _ _ Eb B Q S R). exact H3.
    + rewrite (Lock_begin_fails _ _ _ _ _ Eb B). exact H1.
  - (* a store that answers: AlreadyHeld *)
    intros L Hr.
    pose proof (BeginTxx_reliable 2 (Lock.db b) ctx d L Hr) as Hb.
    pose proof (reliable_tail 2 d _ Hr (BeginTxx_script (Lock.db b) ctx d L)) as Hr1.
    pose proof (BeginTxx_holds ta _ (Lock.db b) ctx d Hh) as H1.
    destruct (sqlx.BeginTxx (Lock.db b) ctx d) as [[tb|e] d1] eqn:B;
      cbn [fst snd] in *; [|discriminate].
    pose proof (BeginTxx_inl _ _ _ _ _ B) as (Htb & _ & _ & Hal).
    assert (Hne : tb <> ta).
    { destruct Hh as [Ha _]. apply alive_lt in Ha. lia. }
    pose proof (GetContext_reliable 1 tb ctx {| Succeed := false |}
                  (pg_try_advisory_xact_lock (Lock.value b)) d1 L Hr1 Hal) as [Hq Hal2].
    pose proof (reliable_tail 1 d1 _ Hr1
                  (GetContext_script tb ctx {| Succeed := false |}
                     (pg_try_advisory_xact_lock (Lock.value b)) d1 L)) as Hr2.
    fold (try_acquire tb ctx (Lock.value b)) in Hq, Hal2, Hr2.
    destruct (try_acquire tb ctx (Lock.value b) d1)
      as [[res err] d2] eqn:Q; cbn [fst snd] in *. subst err.
    assert (S : Succeed res = false).
    { rewrite Kab in Q. exact (try_acquire_held _ _ _ _ _ _ _ H1 Hne Q). }
    pose proof (Rollback_reliable 0 tb d2 Hr2 Hal2) as Hrb.
    destruct (sqlx.Rollback tb d2) as [rb d3] eqn:R;
      cbn [fst] in Hrb. subst rb.
    rewrite (Lock_contended _ _ _ _ _ _ _ _ _ Eb B Q S R). reflexivity.
  - (* the session cannot be opened: the store refuses *)
    intros L msg rest Hs.
    pose proof (BeginTxx_fails (Lock.db b) ctx d msg rest L Hs) as Hb.
    destruct (sqlx.BeginTxx (Lock.db b) ctx d) as [[tb|e] d1] eqn:B;
      cbn [fst] in Hb; [discriminate|]. injection Hb as ->.
    rewrite (Lock_begin_fails _ _ _ _ _ Eb B). reflexivity.
  - (* the session cannot be opened: the context is done *)
    intros e L. rewrite (Lock_done b ctx d e Eb L). cbn [fst snd].
    repeat split; reflexivity.
  - (* the try-acquire fails *)
    intros L msg rest Hs.
    pose proof (BeginTxx_reliable 0 (Lock.db b) ctx d L) as Hb.
    unfold reliable in Hb. rewrite Hs in Hb. specialize (Hb eq_refl).
    pose proof (BeginTxx_script (Lock.db b) ctx d L) as Hs1.
    rewrite Hs in Hs1. cbn [tail] in Hs1.
    destruct (sqlx.BeginTxx (Lock.db b) ctx d) as [[tb|e] d1] eqn:B;
      cbn [fst snd] in *; [|discriminate].
    pose proof (GetContext_fails tb ctx {| Succeed := false |}
                  (pg_try_advisory_xact_lock (Lock.value b)) d1 msg rest L Hs1) as Hq.
    fold (try_acquire tb ctx (Lock.value b)) in Hq.
    destruct (try_acquire tb ctx (Lock.value b) d1) as [[res err] d2] eqn:Q;
      cbn [fst snd] in Hq. subst err.
    destruct (sqlx.Rollback tb d2) as [rb d3] eqn:R.
    rewrite (Lock_query_fails _ _ _ _ _ _ _ _ _ _ Eb B Q R). cbn [fst snd].
    destruct rb; apply Is_Wrap.
  - (* after the release of a *)
    intros L Hr. rewrite (Release_locked a d ta Ea). cbn [fst snd].
    destruct (Rollback_frees 2 ta _ d Hr Hh) as [Hnil Hfree].
    pose proof (reliable_tail 2 d _ Hr (Rollback_script ta d)) as Hr1.
    split; [exact Hnil|]. rewrite <- Kab in Hfree.
    apply (Lock_free b ctx _ L Eb Hfree Hr1).
Qed.

(** C1 at the two handles of the test: the second Lock on "mylock" fails
    with ErrAcquiredLock while the first handle holds it. *)
Lemma mutual_exclusion_witness :
  holds 0%nat (Lock.value mylock_locked) store_locked /\
  (Lock.Lock myLock2 context_TODO store_locked).1.1 = Some dlock.ErrAcquiredLock.
Proof.
  assert (H : holds 0%nat (Lock.value mylock_locked) store_locked)
    by (split; vm_compute; reflexivity).
  split; [exact H|].
  apply (mutual_exclusion "mylock" mylock_locked myLock2 0%nat context_TODO
           store_locked eq_refl eq_refl eq_refl H eq_refl); reflexivity.
Defined.

(** ** WaitForLock *)

Section WaitForLock_facts.
Context {W : Type} {l : dlock.Lock.t W}.


(** Every call of Lock by WaitForLock answers a tick. *)
Lemma WaitForLock_attempts_le (sched : list dlock.selected) (ctx : Context) (w : W) :
  (dlock.WaitForLock_attempts sched ctx w <= ticks_before_Done sched)%nat.
Proof.
  revert w. induction sched as [|[|] sched IH]; intros w; simpl; try lia.
  destruct (dlock.Lock.Lock ctx w) as [[err|] w']; [|lia].
  specialize (IH w'). lia.
Qed.

End WaitForLock_facts.

(** C10. WaitForLock calls Lock only in answer to a tick, so never before
    the first tick.  On a store that answers, with the key free and the
    handle Unlocked, a call of Lock, made while the context is not done,
    would return nil; yet when the select fires on Done before the first
    tick, WaitForLock returns the timeout error without one call of Lock:
    the handle and the store, log included, are as they were. *)
Theorem WaitForLock_waits_for_first_tick (l : Lock.t) (d : DB) (ctx : Context)
    (ctx_Err : error) (sched : list dlock.selected) :
  Lock.tx l = None -> advisory d !! Lock.value l = None ->
  reliable 2 d = true ->
  (context_Err ctx = None -> (Lock.Lock l ctx d).1.1 = None) /\
  dlock.WaitForLock (dlock.case_Done :: sched) ctx ctx_Err (l, d)
  = (Some (Wrap (Some ctx_Err) "timeout to acquired lock"), (l, d)) /\
  dlock.WaitForLock_attempts (dlock.case_Done :: sched) ctx (l, d) = 0%nat /\
  forall (sched' : list dlock.selected) (w : Lock.t * DB),
    (dlock.WaitForLock_attempts sched' ctx w <= ticks_before_Done sched')%nat.
Proof.
  intros E Hfree Hr. split; [|split; [|split]].
  - intros L. apply (Lock_free l ctx d L E Hfree Hr).
  - reflexivity.
  - reflexivity.
  - intros sched' w. apply WaitForLock_attempts_le.
Qed.

(** C10 at the test's handle on the empty store, the context running into
    its deadline during the first second. *)
Lemma WaitForLock_waits_for_first_tick_witness :
  (Lock.Lock mylock context_TODO empty_store).1.1 = None /\
  dlock.WaitForLock [dlock.case_Done] context_TODO context_DeadlineExceeded
    (mylock, empty_store)
  = (Some (Wrap (Some context_DeadlineExceeded) "timeout to acquired lock"),
     (mylock, empty_store)).
Proof.
  destruct (WaitForLock_waits_for_first_tick mylock empty_store context_TODO
              context_DeadlineExceeded [] eq_refl eq_refl eq_refl)
    as (H1 & H2 & _).
  split; [exact (H1 eq_refl) | exact H2].
Defined.

(** ** Contexts that are done *)

Lemma observed_done (c : Context) (e : error) :
  exists e', context_Err (observed c (Some e)) = Some e'.
Proof. simpl. destruct (context_Err c); eauto. Qed.







(** isLock with a context that is done: the probe is refused, so the
    transaction is rolled back and the handle is Unlocked. *)
Lemma isLock_done (l : Lock.t) (ctx : Context) (d : DB) (e : error) :
  context_Err ctx = Some e ->
  (Lock.isLock l ctx d).1.1 <> None /\
  Lock.tx (Lock.isLock l ctx d).1.2 = None /\
  (forall t, Lock.tx l = Some t ->
     log (Lock.isLock l ctx d).2
     = (log d ++ [call_GetContext t select_true; call_Rollback t])%list /\
     (script d = [] -> alive t (Lock.isLock l ctx d).2 = false /\
        (alive t d = true ->
         forall k, advisory (Lock.isLock l ctx d).2 !! k <> Some t))).
Proof.
  intros L. destruct (Lock.tx l) as [t|] eqn:E.
  - pose proof (GetContext_done t ctx {| Succeed := false |} select_true d e L) as P.
    fold (probe t ctx) in P.
    match type of P with _ = (_, ?x) => remember x as d1 eqn:Hd1 end.
    destruct (sqlx.Rollback t d1) as [rb d2] eqn:R.
    rewrite (isLock_lost l ctx d d1 d2 t _ e rb E P R). cbn [fst snd].
    split; [destruct rb; discriminate|]. split; [reflexivity|].
    intros t' [= <-]. split.
    + replace d2 with (sqlx.Rollback t d1).2 by (rewrite R; reflexivity).
      rewrite Rollback_log, Hd1. simpl. rewrite <- app_assoc. reflexivity.
    + intros Hs.
      assert (Hs1 : script d1 = []) by (rewrite Hd1; exact Hs).
      revert R. unfold sqlx.Rollback, bind, received, failure, ret; simpl.
      rewrite Hs1. simpl.
      assert (A1 : alive t d1 = alive t d) by (rewrite Hd1; reflexivity).
      destruct (alive t _) eqn:A; intros [= <- <-].
      * split.
        -- unfold alive, end_session; simpl.
           rewrite list_lookup_insert_eq; [reflexivity|].
           apply alive_lt in A. exact A.
        -- intros _ k H. unfold end_session in H; simpl in H.
           apply map_lookup_filter_Some in H as [_ H]. simpl in H. congruence.
      * split; [exact A|]. intros A'. rewrite <- A1 in A'.
        unfold alive in A, A'; simpl in A. congruence.
  - rewrite (isLock_unlocked l ctx d E). cbn [fst snd].
    split; [discriminate|]. split; [exact E|]. intros t H. discriminate.
Qed.

(** ** ContextLock *)

Section ContextLock_facts.
Context {W : Type} {l : dlock.Lock.t W} {env : Ended W}.

(** Once the goroutine has returned it takes no step: along any run from
    there, no probe is added. *)
Lemma run_after_exit (ctx : Context) (es : list dlock.event) (m m' : dlock.state W) :
  dlock.monitor m = dlock.Exited -> dlock.run ctx m es = Some m' ->
  dlock.monitor m' = dlock.Exited /\ dlock.probes m' = dlock.probes m.
Proof.
  revert m. induction es as [|e es IH]; intros m Hm; simpl.
  - intros [= <-]. auto.
  - destruct (dlock.step ctx m e) as [m1|] eqn:S; [|discriminate].
    intros Hrun.
    assert (H1 : dlock.monitor m1 = dlock.Exited /\ dlock.probes m1 = dlock.probes m).
    { destruct e as [|e'|sel|]; simpl in S.
      - injection S as <-. unfold dlock.cancel.
        destruct (dlock.newCtx_Err m); auto.
      - injection S as <-. unfold dlock.ctx_done.
        destruct (dlock.ctx_Err m); auto.
      - rewrite Hm in S. discriminate.
      - injection S as <-. auto. }
    destruct H1 as [H1 H2]. destruct (IH m1 H1 Hrun) as [H3 H4].
    split; [assumption | congruence].
Qed.

(** ContextLock itself. *)
Lemma ContextLock_returns (ctx : Context) (w : W) (ctx_Err : option error) :
  let newCtx := context_WithCancel ctx in
  let r := dlock.ContextLock ctx (dlock.initial w ctx_Err) in
  let locked := dlock.Lock.Lock (observed ctx ctx_Err) w in
  (forall e, locked.1 = Some e ->
     r.1 = (None, None, Some e) /\
     dlock.monitor r.2 = dlock.NotStarted /\ dlock.probes r.2 = 0%nat) /\
  (locked.1 = None ->
     r.1 = (Some newCtx, Some (cancel_of newCtx), None) /\
     dlock.monitor r.2 = dlock.Running /\
     dlock.newCtx_Err r.2 = ctx_Err).
Proof.
  cbv zeta. unfold dlock.ContextLock, dlock.initial; simpl.
  destruct (dlock.Lock.Lock (observed ctx ctx_Err) w) as [err w'] eqn:L; simpl.
  split.
  - intros e ->. auto.
  - intros ->. auto.
Qed.

(** One iteration of the goroutine, case by case. *)
Lemma monitor_iteration (ctx : Context) (m : dlock.state W) :
  dlock.monitor m = dlock.Running ->
  let newCtx := context_WithCancel ctx in
  let p := dlock.Lock.IsLock (observed newCtx (dlock.newCtx_Err m)) (dlock.world m) in
  (p.1 <> None ->
     exists m', dlock.step ctx m (dlock.ev_select dlock.case_tick) = Some m' /\
       dlock.monitor m' = dlock.Exited /\ dlock.newCtx_Err m' <> None /\
       dlock.probes m' = S (dlock.probes m)) /\
  (p.1 = None ->
     exists m', dlock.step ctx m (dlock.ev_select dlock.case_tick) = Some m' /\
       dlock.monitor m' = dlock.Running /\
       dlock.newCtx_Err m' = dlock.newCtx_Err m /\
       dlock.probes m' = S (dlock.probes m)) /\
  (dlock.newCtx_Err m = None ->
     dlock.step ctx m (dlock.ev_select dlock.case_Done) = None) /\
  (dlock.newCtx_Err m <> None ->
     dlock.step ctx m (dlock.ev_select dlock.case_Done)
     = Some (dlock.set_monitor dlock.Exited m)) /\
  dlock.newCtx_Err (dlock.cancel ctx m) <> None /\
  (forall e, dlock.ctx_Err m = None ->
     dlock.newCtx_Err (dlock.ctx_done ctx e m) <> None).
Proof.
  intros Hm. cbv zeta. repeat split.
  - intros Hp. unfold dlock.step, dlock.monitor_loop. rewrite Hm.
    destruct (dlock.Lock.IsLock _ (dlock.world m)) as [[err|] w'] eqn:P;
      simpl in Hp; [|congruence].
    unfold dlock.cancel; simpl.
    destruct (dlock.newCtx_Err m) eqn:En;
      (eexists; split; [reflexivity|]; simpl; repeat split; discriminate).
  - intros Hp. unfold dlock.step, dlock.monitor_loop. rewrite Hm.
    destruct (dlock.Lock.IsLock _ (dlock.world m)) as [[err|] w'] eqn:P;
      simpl in Hp; [discriminate|].
    destruct (dlock.newCtx_Err m) eqn:En;
      (eexists; split; [reflexivity|]; simpl; auto).
  - intros Hn. unfold dlock.step. rewrite Hm, Hn. reflexivity.
  - intros Hn. unfold dlock.step. rewrite Hm.
    destruct (dlock.newCtx_Err m); [reflexivity | congruence].
  - unfold dlock.cancel. destruct (dlock.newCtx_Err m) eqn:E; simpl;
      [rewrite E|]; discriminate.
  - intros e E. unfold dlock.ctx_done. rewrite E. simpl.
    destruct (dlock.newCtx_Err m); discriminate.
Qed.

End ContextLock_facts.

(** With the SQL lock, a tick taken once the derived context is done is
    the last thing the goroutine does: the probe is refused, which
    releases the handle. *)
Lemma tick_after_done (ctx : Context) (m : dlock.state (Lock.t * DB)) :
  dlock.monitor m = dlock.Running -> dlock.newCtx_Err m <> None ->
  exists m',
    dlock.step ctx m (dlock.ev_select dlock.case_tick) = Some m' /\
    dlock.monitor m' = dlock.Exited /\
    dlock.probes m' = S (dlock.probes m) /\
    Lock.tx (dlock.world m').1 = None /\
    (forall t, Lock.tx (dlock.world m).1 = Some t ->
       log (dlock.world m').2
       = (log (dlock.world m).2
          ++ [call_GetContext t select_true; call_Rollback t])%list /\
       (script (dlock.world m).2 = [] -> alive t (dlock.world m').2 = false)).
Proof.
  intros Hm Hne. destruct m as [[l d] ce [e|] mon pr]; simpl in *; [|congruence].
  subst mon.
  destruct (observed_done (context_WithCancel ctx) e) as [e' L].
  destruct (isLock_done l _ d e' L) as (H1 & H2 & H3).
  unfold dlock.step, dlock.monitor_loop; simpl. unfold Lock.IsLock.
  simpl in L, H1, H2, H3.
  destruct (Lock.isLock l (context_done (context_WithCancel ctx) e) d)
    as [[err l'] d'] eqn:P; cbn [fst snd] in *.
  destruct err as [err|]; [|congruence].
  unfold dlock.cancel; simpl.
  eexists. split; [reflexivity|]. simpl.
  split; [reflexivity|]. split; [reflexivity|]. split; [exact H2|].
  intros t Ht. destruct (H3 t Ht) as [H4 H5]. split; [exact H4|].
  intros Hs. apply H5, Hs.
Qed.

Lemma probes_after_done (ctx : Context) (es : list dlock.event)
    (m m' : dlock.state (Lock.t * DB)) :
  dlock.newCtx_Err m <> None -> dlock.run ctx m es = Some m' ->
  (dlock.probes m' <= S (dlock.probes m))%nat.
Proof.
  revert m. induction es as [|e es IH]; intros m Hne; simpl.
  - intros [= <-]. lia.
  - destruct (dlock.step ctx m e) as [m1|] eqn:S; [|discriminate].
    intros Hrun. destruct e as [|e'|sel|]; simpl in S.
    + injection S as <-. unfold dlock.cancel in Hrun.
      destruct (dlock.newCtx_Err m) eqn:En; [|congruence].
      apply (IH m); [congruence | exact Hrun].
    + injection S as <-.
      assert (H : dlock.newCtx_Err (dlock.ctx_done ctx e' m) <> None /\
                  dlock.probes (dlock.ctx_done ctx e' m) = dlock.probes m).
      { unfold dlock.ctx_done. destruct (dlock.ctx_Err m); [auto|]. simpl.
        destruct (dlock.newCtx_Err m); [split; [discriminate | reflexivity]|congruence]. }
      destruct H as [H1 H2]. specialize (IH _ H1 Hrun). lia.
    + destruct (dlock.monitor m) eqn:Hm; try discriminate.
      destruct sel.
      * destruct (dlock.newCtx_Err m); [|congruence].
        injection S as <-.
        destruct (run_after_exit ctx es (dlock.set_monitor dlock.Exited m) m'
                    eq_refl Hrun) as [_ H]. simpl in H. lia.
      * destruct (tick_after_done ctx m Hm Hne) as (m2 & S2 & Hx & Hp & _).
        assert (m1 = m2).
        { unfold dlock.step in S2. rewrite Hm in S2.
          destruct (dlock.newCtx_Err m); congruence. }
        subst m2.
        destruct (run_after_exit ctx es _ m' Hx Hrun) as [_ H]. lia.
    + injection S as <-.
      apply (IH (dlock.set_world (snd (dlock.Lock.Release (dlock.world m))) m));
        [exact Hne | exact Hrun].
Qed.




(** Against C7 as stated.  ContextLock on the test's handle and the empty
    store, then the caller cancels the derived context, then the select
    of the goroutine fires on a tick that is pending next to Done: the
    goroutine calls IsLock once more, after the derived context was done,
    and the store gets the probe's call and a rollback. *)
Lemma probe_after_cancel :
  let s := (dlock.ContextLock context_TODO
              (dlock.initial (mylock, empty_store) None)).2 in
  dlock.monitor s = dlock.Running /\ dlock.probes s = 0%nat /\
  dlock.newCtx_Err (dlock.cancel context_TODO s) = Some context_Canceled /\
  exists s',
    dlock.run context_TODO s [dlock.ev_cancel; dlock.ev_select dlock.case_tick]
    = Some s' /\
    dlock.probes s' = 1%nat /\
    log (dlock.world s').2
    = [call_BeginTxx;
       call_GetContext 0%nat (pg_try_advisory_xact_lock (Lock.value mylock));
       call_GetContext 0%nat select_true;
       call_Rollback 0%nat].
Proof.
  cbv zeta. split; [reflexivity|]. split; [reflexivity|]. split; [reflexivity|].
  eexists. split; [vm_compute; reflexivity|]. split; vm_compute; reflexivity.
Qed.

(** C7, amended.  When the Lock of ContextLock fails, ContextLock returns
    that error with a nil context and a nil cancel, and no goroutine is
    started.  When it succeeds, the derived context and its cancel are
    returned and the goroutine runs.  From any state in which the
    goroutine runs: a tick makes it call IsLock once, with the derived
    context as it is then; if that call fails the derived context is
    cancelled and the goroutine has returned; if it succeeds the
    goroutine goes on.  The derived context is done after the returned
    cancel, after the termination of the caller's context and after the
    goroutine's own cancel; once it is done the select can fire on Done,
    and then the goroutine returns without a call of IsLock.  After it
    has returned it calls IsLock no more.  A tick that is pending next to
    Done can still be taken: with the SQL lock the probe it makes is
    refused for the done context, so the goroutine returns after it, and
    from the moment the derived context is done there is at most one
    more probe. *)
Theorem ContextLock_monitor (W : Type) (L : dlock.Lock.t W) (E : Ended W)
    (ctx : Context) (w : W) (ctx_Err : option error) :
  let newCtx := context_WithCancel ctx in
  let r := dlock.ContextLock ctx (dlock.initial w ctx_Err) in
  let locked := dlock.Lock.Lock (observed ctx ctx_Err) w in
  (forall e, locked.1 = Some e ->
     r.1 = (None, None, Some e) /\
     dlock.monitor r.2 = dlock.NotStarted /\ dlock.probes r.2 = 0%nat) /\
  (locked.1 = None ->
     r.1 = (Some newCtx, Some (cancel_of newCtx), None) /\
     dlock.monitor r.2 = dlock.Running /\
     dlock.newCtx_Err r.2 = ctx_Err) /\
  (forall m : dlock.state W, dlock.monitor m = dlock.Running ->
     let p := dlock.Lock.IsLock (observed newCtx (dlock.newCtx_Err m))
                (dlock.world m) in
     (p.1 <> None ->
        exists m', dlock.step ctx m (dlock.ev_select dlock.case_tick) = Some m' /\
          dlock.monitor m' = dlock.Exited /\ dlock.newCtx_Err m' <> None /\
          dlock.probes m' = S (dlock.probes m)) /\
     (p.1 = None ->
        exists m', dlock.step ctx m (dlock.ev_select dlock.case_tick) = Some m' /\
          dlock.monitor m' = dlock.Running /\
          dlock.newCtx_Err m' = dlock.newCtx_Err m /\
          dlock.probes m' = S (dlock.probes m)) /\
     (dlock.newCtx_Err m = None ->
        dlock.step ctx m (dlock.ev_select dlock.case_Done) = None) /\
     (dlock.newCtx_Err m <> None ->
        dlock.step ctx m (dlock.ev_select dlock.case_Done)
        = Some (dlock.set_monitor dlock.Exited m)) /\
     dlock.newCtx_Err (dlock.cancel ctx m) <> None /\
     (forall e, dlock.ctx_Err m = None ->
        dlock.newCtx_Err (dlock.ctx_done ctx e m) <> None)) /\
  (forall (m m' : dlock.state W) (es : list dlock.event),
     dlock.monitor m = dlock.Exited -> dlock.run ctx m es = Some m' ->
     dlock.monitor m' = dlock.Exited /\ dlock.probes m' = dlock.probes m) /\
  (forall m : dlock.state (Lock.t * DB),
     dlock.monitor m = dlock.Running -> dlock.newCtx_Err m <> None ->
     (exists m', dlock.step ctx m (dlock.ev_select dlock.case_tick) = Some m' /\
        dlock.monitor m' = dlock.Exited /\
        dlock.probes m' = S (dlock.probes m)) /\
     (forall (es : list dlock.event) (m' : dlock.state (Lock.t * DB)),
        dlock.run ctx m es = Some m' ->
        (dlock.probes m' <= S (dlock.probes m))%nat)).
Proof.
  cbv zeta.
  destruct (ContextLock_returns ctx w ctx_Err) as [H1 H2].
  split; [exact H1|]. split; [exact H2|]. split; [|split].
  - intros m Hm. apply (monitor_iteration ctx m Hm).
  - intros m m' es. apply run_after_exit.
  - intros m Hm Hne. split.
    + destruct (tick_after_done ctx m Hm Hne) as (m' & S & Hx & Hp & _). eauto.
    + intros es m'. apply probes_after_done, Hne.
Qed.


(** The same on the parent's side: the caller's context, which can be
    cancelled, ends; the transaction that was begun with it is rolled back
    by [database/sql] and the key is free, while the handle still has its
    transaction and the store has had no call. *)
Example parent_cancel_rolls_back :
  let ctx := context_WithCancel context_TODO in
  let s := (dlock.ContextLock ctx (dlock.initial (mylock, empty_store) None)).2 in
  holds 0%nat (Lock.value mylock) (dlock.world s).2 /\
  exists s',
    dlock.run ctx s [dlock.ev_ctx_done context_Canceled] = Some s' /\
    Lock.tx (dlock.world s').1 = Some 0%nat /\
    alive 0%nat (dlock.world s').2 = false /\
    advisory (dlock.world s').2 !! Lock.value mylock = None /\
    log (dlock.world s').2 = log (dlock.world s).2 /\
    dlock.newCtx_Err s' = Some context_Canceled.
Proof.
  cbv zeta. split; [split; vm_compute; reflexivity|].
  eexists. split; [vm_compute; reflexivity|].
  repeat split; vm_compute; reflexivity.
Qed.



(** ** The key *)

(** The FNV-1a state stays a uint64. *)
Lemma fnv_Write_range (data : list ascii) (s : fnv.sum64a) :
  0 <= s < 2 ^ 64 -> 0 <= (fnv.Write s data).1 < 2 ^ 64.
Proof.
  unfold fnv.Write; simpl. revert s.
  induction data as [|c data IH]; intros s Hs; simpl; [assumption|].
  apply IH. unfold fnv.round. apply Z.mod_pos_bound. lia.
Qed.

Lemma int64_range (u : Z) : 0 <= u < 2 ^ 64 -> - 2 ^ 63 <= int64 u < 2 ^ 63.
Proof. unfold int64. intros H. destruct (Z.ltb_spec u (2 ^ 63)); lia. Qed.

(** No method of the handle writes its key or its pool. *)
Lemma release_value (l : Lock.t) (d : DB) :
  Lock.value (Lock.release l d).1.2 = Lock.value l.
Proof.
  unfold Lock.release, bind, ret. destruct (Lock.tx l); [|reflexivity].
  destruct (sqlx.Rollback t d); reflexivity.
Qed.

Lemma isLock_value (l : Lock.t) (ctx : Context) (d : DB) :
  Lock.value (Lock.isLock l ctx d).1.2 = Lock.value l.
Proof.
  destruct (Lock.tx l) as [t|] eqn:E.
  - destruct (probe t ctx d) as [[res [e|]] d1] eqn:P.
    + destruct (sqlx.Rollback t d1) as [rb d2] eqn:R.
      rewrite (isLock_lost l ctx d d1 d2 t res e rb E P R). reflexivity.
    + rewrite (isLock_alive l ctx d d1 t res E P). reflexivity.
  - rewrite (isLock_unlocked l ctx d E). reflexivity.
Qed.

Lemma Lock_value (l : Lock.t) (ctx : Context) (d : DB) :
  Lock.value (Lock.Lock l ctx d).1.2 = Lock.value l.
Proof.
  destruct (Lock.tx l) as [t|] eqn:E.
  - rewrite (Lock_relock l ctx d t E). apply isLock_value.
  - destruct (sqlx.BeginTxx (Lock.db l) ctx d) as [[t|e] d1] eqn:B.
    + destruct (try_acquire t ctx (Lock.value l) d1) as [[res [e|]] d2] eqn:Q.
      * destruct (sqlx.Rollback t d2) as [rb d3] eqn:R.
        rewrite (Lock_query_fails _ _ _ _ _ _ _ _ _ _ E B Q R). reflexivity.
      * destruct (Succeed res) eqn:S.
        -- rewrite (Lock_acquired _ _ _ _ _ _ _ E B Q S). reflexivity.
        -- destruct (sqlx.Rollback t d2) as [rb d3] eqn:R.
           rewrite (Lock_contended _ _ _ _ _ _ _ _ _ E B Q S R). reflexivity.
    + rewrite (Lock_begin_fails _ _ _ _ _ E B). reflexivity.
Qed.

Lemma invoke_all_value (ms : list method) (l : Lock.t) (d : DB) :
  Lock.value (invoke_all ms l d).1 = Lock.value l.
Proof.
  revert l d. induction ms as [|m ms IH]; intros l d; simpl; [reflexivity|].
  destruct (invoke m l d) as [[err l'] d'] eqn:I. rewrite IH.
  replace l' with (invoke m l d).1.2 by (rewrite I; reflexivity).
  destruct m; simpl; [apply Lock_value | apply isLock_value | apply release_value].
Qed.

(** C9. The key is a function of the name alone: two calls of hash on
    equal names give equal keys, whatever happened in between; hash never
    fails and its key is an int64.  New, on any factory, gives an Unlocked
    handle whose key is the hash of the name, and no sequence of Lock,
    IsLock and Release calls on any store changes the key of a handle. *)
Theorem key_deterministic (dl1 dl2 : DistributedLock.t) (name1 name2 : string) :
  name1 = name2 ->
  hash name1 = hash name2 /\
  (hash name1).2 = None /\
  - 2 ^ 63 <= (hash name1).1 < 2 ^ 63 /\
  DistributedLock.New dl1 name1
  = (Some (Lock.mk (DistributedLock.db dl1) None (hash name1).1), None) /\
  (forall l1 l2,
     (DistributedLock.New dl1 name1).1 = Some l1 ->
     (DistributedLock.New dl2 name2).1 = Some l2 ->
     Lock.value l1 = Lock.value l2 /\
     forall (ms1 ms2 : list method) (d1 d2 : DB),
       Lock.value (invoke_all ms1 l1 d1).1 = (hash name1).1 /\
       Lock.value (invoke_all ms2 l2 d2).1 = (hash name1).1).
Proof.
  intros <-.
  assert (Hh : hash name1
               = (int64 (fnv.Write fnv.New64a (list_ascii_of_string name1)).1, None)).
  { reflexivity. }
  assert (HN : forall dl, DistributedLock.New dl name1
               = (Some (Lock.mk (DistributedLock.db dl) None (hash name1).1), None)).
  { intros dl. unfold DistributedLock.New. rewrite Hh. reflexivity. }
  split; [reflexivity|]. split; [rewrite Hh; reflexivity|].
  split.
  { rewrite Hh. cbn [fst]. apply int64_range, fnv_Write_range.
    unfold fnv.New64a, fnv.offset64. lia. }
  split; [apply HN|].
  intros l1 l2. rewrite !HN. cbn [fst]. intros [= <-] [= <-].
  split; [reflexivity|]. intros ms1 ms2 d1 d2.
  rewrite !invoke_all_value. split; reflexivity.
Qed.

(** C9 at the two handles of the test, made for "mylock". *)
Lemma key_deterministic_witness :
  hash "mylock" = (5745039872434889948, None) /\
  Lock.value mylock = Lock.value myLock2.
Proof.
  destruct (key_deterministic storage storage "mylock" "mylock" eq_refl)
    as (_ & _ & _ & _ & H).
  split; [reflexivity|].
  exact (proj1 (H mylock myLock2 eq_refl eq_refl)).
Defined.

(** * Further properties of the code *)

(** ** kit/errors: wrapping and unwrapping *)

Lemma Wrap_all_Some (ms : list string) (e : error) :
  exists e', Wrap_all ms (Some e) = Some e'.
Proof.
  induction ms as [|m ms [e' IH]]; simpl; [eauto|].
  rewrite IH. simpl. eauto.
Qed.

(** X1. Wrapping keeps the cause findable: an error that Is [target] still
    Is [target] after any number of Wrap calls, whatever the messages; in
    particular the wrapped error Is the error that was wrapped.  A nil
    error stays nil through any number of Wrap calls. *)
Theorem Is_Wrap_all (ms : list string) (e : error) (target : option error) :
  Is (Some e) target = true ->
  Is (Wrap_all ms (Some e)) target = true /\
  Is (Wrap_all ms (Some e)) (Some e) = true /\
  Wrap_all ms None = None.
Proof.
  intros H.
  assert (G : forall t, Is (Some e) t = true -> Is (Wrap_all ms (Some e)) t = true).
  { intros t Ht. induction ms as [|m ms IH]; simpl; [exact Ht|].
    destruct (Wrap_all_Some ms e) as [e' He']. rewrite He' in *. simpl.
    destruct t as [t|]; simpl in *; [|discriminate].
    rewrite IH. apply orb_true_r. }
  split; [apply G, H|]. split.
  - apply G. simpl. apply chain_has_refl.
  - clear. induction ms as [|m ms IH]; simpl; [reflexivity|].
    rewrite IH. reflexivity.
Qed.

Lemma Is_Wrap_all_witness :
  Is (Wrap_all ["failed to get lock status"; "retrying"] (Some dlock.ErrAcquiredLock))
     (Some dlock.ErrAcquiredLock) = true.
Proof.
  apply (Is_Wrap_all ["failed to get lock status"; "retrying"]
           dlock.ErrAcquiredLock (Some dlock.ErrAcquiredLock) eq_refl).
Defined.

(** X2. Unwrap undoes Wrap: unwrapping as many times as the error was
    wrapped gives the error back, and the text of the wrapped error is the
    messages, each followed by a colon and a space, before the text of the
    error. *)
Theorem Unwrap_Wrap_all (ms : list string) (e : error) :
  Unwrap_n (length ms) (Wrap_all ms (Some e)) = Some e /\
  option_map Error (Wrap_all ms (Some e))
  = Some (fold_right (fun m acc => m +:+ ": " +:+ acc) (Error e) ms).
Proof.
  induction ms as [|m ms [IH1 IH2]]; simpl; [split; reflexivity|].
  destruct (Wrap_all_Some ms e) as [e' He']. rewrite He' in *. simpl in *.
  split; [exact IH1|]. injection IH2 as ->. reflexivity.
Qed.

(** ** hash: names that differ in one byte *)

(** Multiplication by the FNV prime is one-to-one on uint64: the prime is
    odd, so it has an inverse modulo 2^64. *)
Lemma prime64_cancel (x y : Z) :
  0 <= x < 2 ^ 64 -> 0 <= y < 2 ^ 64 ->
  (x * fnv.prime64) mod 2 ^ 64 = (y * fnv.prime64) mod 2 ^ 64 -> x = y.
Proof.
  intros Hx Hy H.
  assert (Hinv : forall z, 0 <= z < 2 ^ 64 ->
            (((z * fnv.prime64) mod 2 ^ 64) * 14886173955864302971) mod 2 ^ 64 = z).
  { intros z Hz. rewrite Z.mul_mod_idemp_l by lia.
    rewrite <- Z.mul_assoc.
    rewrite <- Z.mul_mod_idemp_r by lia.
    replace ((fnv.prime64 * 14886173955864302971) mod 2 ^ 64) with 1 by reflexivity.
    rewrite Z.mul_1_r. apply Z.mod_small. exact Hz. }
  rewrite <- (Hinv x Hx), <- (Hinv y Hy), H. reflexivity.
Qed.

Lemma byte_range (c : ascii) : 0 <= Z.of_N (N_of_ascii c) < 2 ^ 64.
Proof.
  assert (H : (N_of_ascii c < 256)%N) by apply N_ascii_bounded. lia.
Qed.

Lemma lxor_range (h b : Z) :
  0 <= h < 2 ^ 64 -> 0 <= b < 2 ^ 64 -> 0 <= Z.lxor h b < 2 ^ 64.
Proof.
  intros Hh Hb.
  assert (H0 : 0 <= Z.lxor h b) by (apply Z.lxor_nonneg; lia).
  split; [exact H0|].
  destruct (Z.eq_dec (Z.lxor h b) 0) as [->|Hne]; [lia|].
  apply Z.log2_lt_pow2; [lia|].
  pose proof (Z.log2_lxor h b ltac:(lia) ltac:(lia)) as Hl.
  assert (Hlh : Z.log2 h < 64).
  { destruct (Z.eq_dec h 0) as [->|]; [reflexivity|].
    apply Z.log2_lt_pow2; lia. }
  assert (Hlb : Z.log2 b < 64).
  { destruct (Z.eq_dec b 0) as [->|]; [reflexivity|].
    apply Z.log2_lt_pow2; lia. }
  lia.
Qed.

Lemma round_range (h : fnv.sum64a) (c : ascii) : 0 <= fnv.round h c < 2 ^ 64.
Proof. unfold fnv.round. apply Z.mod_pos_bound. lia. Qed.

Lemma lxor_cancel_l (h a b : Z) : Z.lxor h a = Z.lxor h b -> a = b.
Proof.
  intros H. apply (f_equal (Z.lxor h)) in H.
  rewrite <- !Z.lxor_assoc, Z.lxor_nilpotent, !Z.lxor_0_l in H. exact H.
Qed.

Lemma lxor_cancel_r (h1 h2 b : Z) : Z.lxor h1 b = Z.lxor h2 b -> h1 = h2.
Proof. rewrite !(Z.lxor_comm _ b). apply lxor_cancel_l. Qed.

(** One round is one-to-one in the byte and in the state. *)
Lemma round_inj_byte (h : fnv.sum64a) (a b : ascii) :
  0 <= h < 2 ^ 64 -> fnv.round h a = fnv.round h b -> a = b.
Proof.
  intros Hh H. unfold fnv.round in H.
  apply prime64_cancel in H;
    try (apply lxor_range; [exact Hh | apply byte_range]).
  apply lxor_cancel_l, N2Z.inj in H.
  rewrite <- (ascii_N_embedding a), <- (ascii_N_embedding b), H. reflexivity.
Qed.

Lemma round_inj_state (h1 h2 : fnv.sum64a) (c : ascii) :
  0 <= h1 < 2 ^ 64 -> 0 <= h2 < 2 ^ 64 ->
  fnv.round h1 c = fnv.round h2 c -> h1 = h2.
Proof.
  intros H1 H2 H. unfold fnv.round in H.
  apply prime64_cancel in H;
    try (apply lxor_range; [assumption | apply byte_range]).
  apply lxor_cancel_r in H. exact H.
Qed.

Lemma fold_round_inj (data : list ascii) (h1 h2 : fnv.sum64a) :
  0 <= h1 < 2 ^ 64 -> 0 <= h2 < 2 ^ 64 ->
  fold_left fnv.round data h1 = fold_left fnv.round data h2 -> h1 = h2.
Proof.
  revert h1 h2. induction data as [|c data IH]; intros h1 h2 H1 H2; simpl; [auto|].
  intros H. apply IH in H; try apply round_range.
  eapply round_inj_state; eauto.
Qed.

Lemma fold_round_range (data : list ascii) (h : fnv.sum64a) :
  0 <= h < 2 ^ 64 -> 0 <= fold_left fnv.round data h < 2 ^ 64.
Proof.
  revert h. induction data as [|c data IH]; intros h Hh; simpl; [exact Hh|].
  apply IH, round_range.
Qed.

Lemma int64_inj (u v : Z) :
  0 <= u < 2 ^ 64 -> 0 <= v < 2 ^ 64 -> int64 u = int64 v -> u = v.
Proof.
  unfold int64. intros Hu Hv.
  destruct (Z.ltb_spec u (2 ^ 63)), (Z.ltb_spec v (2 ^ 63)); lia.
Qed.

Lemma list_ascii_of_string_app (s1 s2 : string) :
  list_ascii_of_string (s1 +:+ s2)
  = (list_ascii_of_string s1 ++ list_ascii_of_string s2)%list.
Proof. induction s1 as [|c s1 IH]; simpl; [reflexivity|]. rewrite IH. reflexivity. Qed.

(** X3. Two names of the same length that differ in exactly one byte never
    get the same key: for all [before], [after] and bytes [a], [b] with
    [a <> b], hash of [before a after] differs from hash of
    [before b after]. *)
Theorem hash_one_byte_apart (before after : string) (a b : ascii) :
  a <> b ->
  (hash (before +:+ String a after)).1 <> (hash (before +:+ String b after)).1.
Proof.
  intros Hab H. apply Hab. unfold hash, fnv.Write, fnv.Sum64 in H. simpl in H.
  rewrite !list_ascii_of_string_app in H. simpl in H.
  rewrite !fold_left_app in H. simpl in H.
  assert (Hp : 0 <= fold_left fnv.round (list_ascii_of_string before) fnv.New64a < 2 ^ 64).
  { apply fold_round_range. unfold fnv.New64a, fnv.offset64. lia. }
  apply int64_inj in H; try (apply fold_round_range, round_range).
  apply fold_round_inj in H; try apply round_range.
  eapply round_inj_byte; eauto.
Qed.

(** X3 on two names of the test's kind. *)
Lemma hash_one_byte_apart_witness :
  (hash "lock-1").1 <> (hash "lock-2").1.
Proof.
  apply (hash_one_byte_apart "lock-" "" "1"%char "2"%char). discriminate.
Defined.

(** ** How the calls of a handle change the store *)

Lemma evolves_refl (ended : Tx -> Prop) (d : DB) : evolves ended d d.
Proof. split; [|split]; auto. Qed.

Lemma evolves_trans (ended : Tx -> Prop) (d d1 d2 : DB) :
  evolves ended d d1 -> evolves ended d1 d2 -> evolves ended d d2.
Proof.
  intros (L1 & A1 & H1) (L2 & A2 & H2). split; [|split].
  - lia.
  - intros t Ht Ha. apply A1; [exact Ht|]. apply A2; [lia | exact Ha].
  - intros t k Hn Hh. apply H2; [exact Hn|]. apply H1; assumption.
Qed.

Lemma evolves_weaken (ended ended' : Tx -> Prop) (d d' : DB) :
  (forall t, ended t -> ended' t) -> evolves ended d d' -> evolves ended' d d'.
Proof.
  intros Hsub (L & A & H). split; [|split]; auto.
Qed.

Lemma alive_end_session (t t' : Tx) (d : DB) :
  alive t (end_session t' d) = true -> t <> t' /\ alive t d = true.
Proof.
  unfold alive, end_session; simpl. intros H.
  destruct (decide (t = t')) as [->|Hne].
  - exfalso. destruct (decide (t' < length (sessions d))%nat) as [Hlt|Hge].
    + rewrite list_lookup_insert_eq in H by exact Hlt. discriminate.
    + rewrite list_insert_ge in H by lia.
      rewrite lookup_ge_None_2 in H by lia. discriminate.
  - rewrite list_lookup_insert_ne in H by congruence. auto.
Qed.

Lemma holds_end_session (t t' : Tx) (key : Z) (d : DB) :
  t <> t' -> holds t key d -> holds t key (end_session t' d).
Proof.
  intros Hne [Ha Ho]. split.
  - unfold alive, end_session in *; simpl.
    rewrite list_lookup_insert_ne by congruence. exact Ha.
  - unfold end_session; simpl. apply map_lookup_filter_Some.
    split; [exact Ho|]. simpl. congruence.
Qed.

Lemma evolves_end_session (t : Tx) (d : DB) :
  evolves (eq t) d (end_session t d).
Proof.
  split; [|split].
  - unfold end_session; simpl. rewrite length_insert. lia.
  - intros t0 _ Ha. apply alive_end_session in Ha. tauto.
  - intros t0 k Hn Hh. apply holds_end_session; [congruence|exact Hh].
Qed.

Lemma evolves_BeginTxx (db : sqlx_DB) (ctx : Context) (d : DB) :
  evolves (fun _ => False) d (sqlx.BeginTxx db ctx d).2.
Proof.
  split; [|split].
  - destruct (sqlx.BeginTxx db ctx d) as [[t|e] d1] eqn:B; simpl.
    + apply BeginTxx_inl in B as (_ & -> & _). rewrite length_app. simpl. lia.
    + apply BeginTxx_inr in B as (-> & _). lia.
  - intros t Ht. destruct (sqlx.BeginTxx db ctx d) as [[t'|e] d1] eqn:B; simpl.
    + apply BeginTxx_inl in B as (_ & Hs & _). unfold alive. rewrite Hs.
      rewrite lookup_app_l by exact Ht. auto.
    + apply BeginTxx_inr in B as (Hs & _). unfold alive. rewrite Hs. auto.
  - intros t k _ Hh. apply BeginTxx_holds, Hh.
Qed.

Lemma GetContext_sessions (t : Tx) (ctx : Context) (dest : dblock) (q : query) (d : DB) :
  sessions (sqlx.GetContext t ctx dest q d).2 = sessions d.
Proof. store_cases. Qed.

Lemma evolves_GetContext (t : Tx) (ctx : Context) (dest : dblock) (q : query) (d : DB) :
  evolves (fun _ => False) d (sqlx.GetContext t ctx dest q d).2.
Proof.
  split; [|split].
  - rewrite GetContext_sessions. lia.
  - intros t0 _. unfold alive. rewrite GetContext_sessions. auto.
  - intros t0 k _ Hh. apply GetContext_holds, Hh.
Qed.

Lemma Rollback_cases (t : Tx) (d : DB) :
  (sessions (sqlx.Rollback t d).2 = sessions d /\
   advisory (sqlx.Rollback t d).2 = advisory d) \/
  (sessions (sqlx.Rollback t d).2 = sessions (end_session t d) /\
   advisory (sqlx.Rollback t d).2 = advisory (end_session t d)).
Proof.
  unfold sqlx.Rollback, bind, received, failure, ret; simpl.
  destruct (script d) as [|[msg|] rest]; simpl; auto;
    unfold alive; simpl; destruct (sessions d !! t) as [[|]|]; simpl; auto.
Qed.

Lemma evolves_frame (ended : Tx -> Prop) (d d1 d2 : DB) :
  sessions d2 = sessions d1 -> advisory d2 = advisory d1 ->
  evolves ended d d1 -> evolves ended d d2.
Proof.
  intros Hs Ha (L & A & H). unfold evolves, holds, alive in *.
  rewrite Hs, Ha. auto.
Qed.

Lemma evolves_Rollback (t : Tx) (d : DB) :
  evolves (eq t) d (sqlx.Rollback t d).2.
Proof.
  destruct (Rollback_cases t d) as [[Hs Ha]|[Hs Ha]].
  - eapply evolves_frame; [exact Hs | exact Ha | apply evolves_refl].
  - eapply evolves_frame; [exact Hs | exact Ha | apply evolves_end_session].
Qed.

(** A try-acquire that answers true leaves the key with its transaction. *)
Lemma try_acquire_true (t : Tx) (ctx : Context) (key : Z) (d d' : DB) (res : dblock) :
  try_acquire t ctx key d = ((res, None), d') -> Succeed res = true ->
  holds t key d'.
Proof.
  intros H S. unfold holds. store_cases.
  all: try (rewrite lookup_insert_eq; auto).
  all: match goal with
       | H : bool_decide _ = true |- _ => apply bool_decide_eq_true_1 in H; subst; auto
       end.
Qed.

Lemma release_evolves (l : Lock.t) (d : DB) :
  evolves (may_end l d) d (Lock.release l d).2 /\
  Lock.tx (Lock.release l d).1.2 = None.
Proof.
  unfold Lock.release, bind, ret.
  destruct (Lock.tx l) as [t|] eqn:E.
  - pose proof (evolves_Rollback t d) as Ev.
    destruct (sqlx.Rollback t d) as [err d']; simpl in *.
    split; [|reflexivity].
    eapply evolves_weaken; [|exact Ev]. intros t0 <-. left. exact E.
  - simpl. split; [apply evolves_refl | exact E].
Qed.

Lemma isLock_evolves (l : Lock.t) (ctx : Context) (d : DB) :
  evolves (may_end l d) d (Lock.isLock l ctx d).2 /\
  tx_after l (Lock.isLock l ctx d).1.2 d (Lock.isLock l ctx d).2.
Proof.
  destruct (Lock.tx l) as [t|] eqn:E.
  - pose proof (evolves_GetContext t ctx {| Succeed := false |} select_true d) as Ev1.
    pose proof (probe_sessions t ctx d) as [Hs Ha].
    fold (probe t ctx) in Ev1.
    destruct (probe t ctx d) as [[res [e|]] d1] eqn:P; cbn [fst snd] in *.
    + pose proof (evolves_Rollback t d1) as Ev2.
      destruct (sqlx.Rollback t d1) as [rb d2] eqn:R; cbn [snd] in Ev2.
      rewrite (isLock_lost l ctx d d1 d2 t res e rb E P R). cbn [fst snd].
      split.
      * eapply evolves_trans.
        -- eapply evolves_weaken; [|exact Ev1]. intros t0 [].
        -- eapply evolves_weaken; [|exact Ev2]. intros t0 <-.
           left. exact E.
      * intros t' H. discriminate.
    + rewrite (isLock_alive l ctx d d1 t res E P). cbn [fst snd]. split.
      * eapply evolves_weaken; [|exact Ev1]. intros t0 [].
      * intros t' H. left. auto.
  - rewrite (isLock_unlocked l ctx d E). cbn [fst snd].
    split; [apply evolves_refl|]. intros t' H. congruence.
Qed.

Lemma Lock_evolves (l : Lock.t) (ctx : Context) (d : DB) :
  evolves (may_end l d) d (Lock.Lock l ctx d).2 /\
  tx_after l (Lock.Lock l ctx d).1.2 d (Lock.Lock l ctx d).2.
Proof.
  destruct (Lock.tx l) as [t|] eqn:E.
  - rewrite (Lock_relock l ctx d t E). apply isLock_evolves.
  - pose proof (evolves_BeginTxx (Lock.db l) ctx d) as Ev1.
    destruct (sqlx.BeginTxx (Lock.db l) ctx d) as [[t|e] d1] eqn:B;
      cbn [snd] in Ev1.
    + pose proof (BeginTxx_inl _ _ _ _ _ B) as (Ht & Hs1 & _ & _).
      assert (L1 : (length (sessions d) <= length (sessions d1))%nat)
        by apply Ev1.
      pose proof (evolves_GetContext t ctx {| Succeed := false |}
                    (pg_try_advisory_xact_lock (Lock.value l)) d1) as Ev2.
      fold (try_acquire t ctx (Lock.value l)) in Ev2.
      assert (Ev12 : forall d2, evolves (fun _ => False) d1 d2 ->
                evolves (may_end l d) d d2).
      { intros d2 Ev. eapply evolves_trans;
          (eapply evolves_weaken; [|eassumption]); intros t0 []. }
      assert (Ev123 : forall d2 d3, evolves (fun _ => False) d1 d2 ->
                evolves (eq t) d2 d3 -> evolves (may_end l d) d d3).
      { intros d2 d3 Ev Ev'. eapply evolves_trans; [apply Ev12, Ev|].
        eapply evolves_weaken; [|exact Ev']. intros t0 <-. right. lia. }
      destruct (try_acquire t ctx (Lock.value l) d1) as [[res [e|]] d2] eqn:Q;
        cbn [snd] in Ev2.
      * pose proof (evolves_Rollback t d2) as Ev3.
        destruct (sqlx.Rollback t d2) as [rb d3] eqn:R; cbn [snd] in Ev3.
        rewrite (Lock_query_fails _ _ _ _ _ _ _ _ _ _ E B Q R). cbn [fst snd].
        split; [eapply Ev123; eauto|]. intros t' H. congruence.
      * destruct (Succeed res) eqn:S.
        -- rewrite (Lock_acquired _ _ _ _ _ _ _ E B Q S). cbn [fst snd].
           split; [apply Ev12, Ev2|]. intros t' [= <-]. right.
           split; [exact E|]. split; [exact Ht|].
           eapply try_acquire_true; eauto.
        -- pose proof (evolves_Rollback t d2) as Ev3.
           destruct (sqlx.Rollback t d2) as [rb d3] eqn:R; cbn [snd] in Ev3.
           rewrite (Lock_contended _ _ _ _ _ _ _ _ _ E B Q S R). cbn [fst snd].
           split; [eapply Ev123; eauto|]. intros t' H. congruence.
    + rewrite (Lock_begin_fails _ _ _ _ _ E B). cbn [fst snd].
      split; [|intros t' H; congruence].
      eapply evolves_weaken; [|exact Ev1]. intros t0 [].
Qed.

Lemma invoke_evolves (m : method) (l : Lock.t) (d : DB) :
  evolves (may_end l d) d (invoke m l d).2 /\
  tx_after l (invoke m l d).1.2 d (invoke m l d).2 /\
  Lock.value (invoke m l d).1.2 = Lock.value l.
Proof.
  destruct m as [ctx|ctx|]; simpl.
  - destruct (Lock_evolves l ctx d). auto using Lock_value.
  - destruct (isLock_evolves l ctx d). auto using isLock_value.
  - destruct (release_evolves l d) as [Ev Ht].
    split; [exact Ev|]. split; [|apply release_value].
    intros t' H. unfold Lock.Release in H. congruence.
Qed.

(** ** Several handles on one store *)

Lemma consistent_unlocked (hs : list Lock.t) (d : DB) :
  Forall (fun l => Lock.tx l = None) hs -> consistent hs d.
Proof.
  intros H.
  assert (G : forall i l t, hs !! i = Some l -> Lock.tx l = Some t -> False).
  { intros i l t Hi Ht. rewrite Forall_lookup in H.
    specialize (H i l Hi). simpl in H. congruence. }
  split; [|split].
  - intros i l t Hi Ht. destruct (G i l t Hi Ht).
  - intros i j li lj t Hi _ Ht. destruct (G i li t Hi Ht).
  - intros i l t Hi Ht. destruct (G i l t Hi Ht).
Qed.

Lemma act_consistent (a : action) (hs : list Lock.t) (d : DB) :
  consistent hs d -> consistent (act a hs d).1 (act a hs d).2.
Proof.
  intros (I1 & I2 & I3). destruct a as [i m|t0]; simpl.
  - destruct (hs !! i) as [l|] eqn:Hi; [|repeat split; assumption].
    destruct (invoke_evolves m l d) as ((L & A & H) & T & V).
    destruct (invoke m l d) as [[err l'] d'] eqn:Inv; cbn [fst snd] in *.
    assert (Hlen : (i < length hs)%nat) by (eapply lookup_lt_Some; eauto).
    assert (Hother : forall j lj t, j <> i -> hs !! j = Some lj ->
              Lock.tx lj = Some t -> ~ may_end l d t).
    { intros j lj t Hne Hj Ht [Hl|Hl].
      - apply Hne. eapply I2; eauto.
      - specialize (I1 j lj t Hj Ht). lia. }
    split; [|split].
    + intros j lj t Hj Ht. destruct (decide (j = i)) as [->|Hne].
      * rewrite list_lookup_insert_eq in Hj by exact Hlen. injection Hj as <-.
        destruct (T t Ht) as [(Hl & _)|(_ & -> & Hh)].
        -- specialize (I1 i l t Hi Hl). lia.
        -- destruct Hh as [Ha _]. apply alive_lt, Ha.
      * rewrite list_lookup_insert_ne in Hj by congruence.
        specialize (I1 j lj t Hj Ht). lia.
    + intros j k lj lk t Hj Hk Htj Htk.
      destruct (decide (j = i)) as [->|Hnj], (decide (k = i)) as [->|Hnk];
        [reflexivity| | |].
      * exfalso.
        rewrite list_lookup_insert_eq in Hj by exact Hlen. injection Hj as <-.
        rewrite list_lookup_insert_ne in Hk by congruence.
        destruct (T t Htj) as [(Hl & _)|(_ & -> & _)].
        -- apply Hnk. eapply I2; eauto.
        -- specialize (I1 k lk _ Hk Htk). lia.
      * exfalso.
        rewrite list_lookup_insert_eq in Hk by exact Hlen. injection Hk as <-.
        rewrite list_lookup_insert_ne in Hj by congruence.
        destruct (T t Htk) as [(Hl & _)|(_ & -> & _)].
        -- apply Hnj. eapply I2; eauto.
        -- specialize (I1 j lj _ Hj Htj). lia.
      * rewrite list_lookup_insert_ne in Hj by congruence.
        rewrite list_lookup_insert_ne in Hk by congruence.
        eapply I2; eauto.
    + intros j lj t Hj Ht Ha. destruct (decide (j = i)) as [->|Hne].
      * rewrite list_lookup_insert_eq in Hj by exact Hlen. injection Hj as <-.
        rewrite V. destruct (T t Ht) as [(Hl & Hs & Hadv)|(_ & _ & Hh)].
        -- rewrite Hadv. apply (I3 i l t Hi Hl).
           unfold alive in *. rewrite <- Hs. exact Ha.
        -- apply Hh.
      * rewrite list_lookup_insert_ne in Hj by congruence.
        assert (Ha0 : alive t d = true).
        { apply A; [eapply I1; eauto | exact Ha]. }
        apply (H t (Lock.value lj)); [eapply Hother; eauto|].
        split; [exact Ha0 | eapply I3; eauto].
  - destruct (evolves_end_session t0 d) as (L & A & H).
    unfold terminate. split; [|split].
    + intros i l t Hi Ht. specialize (I1 i l t Hi Ht). lia.
    + exact I2.
    + intros i l t Hi Ht Ha.
      pose proof (alive_end_session t t0 d Ha) as [Hne Ha0].
      apply (H t (Lock.value l)); [congruence|].
      split; [exact Ha0 | eapply I3; eauto].
Qed.

Lemma acts_consistent (actions : list action) (hs : list Lock.t) (d : DB) :
  consistent hs d -> consistent (acts actions hs d).1 (acts actions hs d).2.
Proof.
  revert hs d. induction actions as [|a rest IH]; intros hs d Hc; simpl;
    [exact Hc|].
  pose proof (act_consistent a hs d Hc) as Hc'.
  destruct (act a hs d) as [hs' d']. apply IH, Hc'.
Qed.

(** X4. A handle that is Locked and whose session is open owns its key on
    the store.  This holds of every handle after any sequence of calls
    through any of the handles (one call at a time, each of Lock, IsLock
    or Release, with any failures of the store) and of sessions ended by
    the server, from handles that start Unlocked. *)
Theorem locked_handle_owns_key (hs0 : list Lock.t) (d0 : DB)
    (actions : list action) (i : nat) (l : Lock.t) (t : Tx) :
  Forall (fun l => Lock.tx l = None) hs0 ->
  (acts actions hs0 d0).1 !! i = Some l ->
  Lock.tx l = Some t ->
  alive t (acts actions hs0 d0).2 = true ->
  advisory (acts actions hs0 d0).2 !! Lock.value l = Some t.
Proof.
  intros H0 Hi Ht Ha.
  destruct (acts_consistent actions hs0 d0 (consistent_unlocked hs0 d0 H0))
    as (_ & _ & I3).
  eapply I3; eauto.
Qed.

(** X4 on the test's first handle after it has locked and the second
    handle has tried. *)
Lemma locked_handle_owns_key_witness :
  advisory (acts [act_call 0%nat (method_Lock context_TODO);
                  act_call 1%nat (method_Lock context_TODO)]
              [mylock; myLock2] empty_store).2 !! Lock.value mylock
  = Some 0%nat.
Proof.
  apply (locked_handle_owns_key [mylock; myLock2] empty_store
           [act_call 0%nat (method_Lock context_TODO);
            act_call 1%nat (method_Lock context_TODO)]
           0%nat mylock_locked 0%nat).
  - repeat constructor.
  - reflexivity.
  - reflexivity.
  - vm_compute. reflexivity.
Defined.

(** X5. Mutual exclusion.  After any such sequence, two different handles
    with the same key are never both Locked on open sessions: if one is
    Locked with its session open, the session of any other Locked handle on
    that key has ended. *)
Theorem handles_mutual_exclusion (hs0 : list Lock.t) (d0 : DB)
    (actions : list action) (i j : nat) (li lj : Lock.t) (ti tj : Tx) :
  Forall (fun l => Lock.tx l = None) hs0 ->
  (acts actions hs0 d0).1 !! i = Some li ->
  (acts actions hs0 d0).1 !! j = Some lj ->
  i <> j -> Lock.value li = Lock.value lj ->
  Lock.tx li = Some ti -> Lock.tx lj = Some tj ->
  alive ti (acts actions hs0 d0).2 = true ->
  alive tj (acts actions hs0 d0).2 = false.
Proof.
  intros H0 Hi Hj Hne Hk Hti Htj Ha.
  destruct (acts_consistent actions hs0 d0 (consistent_unlocked hs0 d0 H0))
    as (_ & I2 & I3).
  destruct (alive tj (acts actions hs0 d0).2) eqn:Haj; [|reflexivity].
  exfalso. apply Hne.
  pose proof (I3 i li ti Hi Hti Ha) as Oi.
  pose proof (I3 j lj tj Hj Htj Haj) as Oj.
  rewrite Hk, Oj in Oi. injection Oi as ->.
  eapply I2; eauto.
Qed.

(** X5 where both handles are Locked: the first locked, the server ended
    its session, the second locked; the first handle's session is the one
    that has ended. *)
Lemma handles_mutual_exclusion_witness :
  let r := acts [act_call 0%nat (method_Lock context_TODO); act_terminate 0%nat;
                 act_call 1%nat (method_Lock context_TODO)]
             [mylock; myLock2] empty_store in
  option_map Lock.tx (r.1 !! 0%nat) = Some (Some 0%nat) /\
  option_map Lock.tx (r.1 !! 1%nat) = Some (Some 1%nat) /\
  alive 0%nat r.2 = false.
Proof.
  cbv zeta. split; [reflexivity|]. split; [reflexivity|].
  apply (handles_mutual_exclusion [mylock; myLock2] empty_store
           [act_call 0%nat (method_Lock context_TODO); act_terminate 0%nat;
            act_call 1%nat (method_Lock context_TODO)]
           1%nat 0%nat (Lock.set_tx (Some 1%nat) myLock2) mylock_locked 1%nat 0%nat).
  - repeat constructor.
  - reflexivity.
  - reflexivity.
  - discriminate.
  - reflexivity.
  - reflexivity.
  - reflexivity.
  - vm_compute. reflexivity.
Defined.

(** ** Lock and Release on a store that answers *)

(** The primitives on a store that answers, called with a context that
    is not done, in full. *)
Lemma BeginTxx_answers (n : nat) (db : sqlx_DB) (ctx : Context) (d : DB) :
  context_Err ctx = None ->
  reliable (S n) d = true ->
  sqlx.BeginTxx db ctx d
  = (inl (length (sessions d)),
     mkDB (sessions d ++ [Open ctx]) (advisory d) (tail (script d))
          (log d ++ [call_BeginTxx])).
Proof. intros L [H|[rest H]]%reliable_head; store_cases. Qed.

Lemma try_acquire_answers (n : nat) (t : Tx) (ctx : Context) (key : Z) (d : DB) :
  context_Err ctx = None ->
  reliable (S n) d = true -> alive t d = true ->
  try_acquire t ctx key d
  = match advisory d !! key with
    | None =>
        (({| Succeed := true |}, None),
         mkDB (sessions d) (<[key := t]> (advisory d)) (tail (script d))
              (log d ++ [call_GetContext t (pg_try_advisory_xact_lock key)]))
    | Some owner =>
        (({| Succeed := bool_decide (owner = t) |}, None),
         mkDB (sessions d) (advisory d) (tail (script d))
              (log d ++ [call_GetContext t (pg_try_advisory_xact_lock key)]))
    end.
Proof. intros L [H|[rest H]]%reliable_head A; store_cases. Qed.

Lemma Rollback_answers (n : nat) (t : Tx) (d : DB) :
  reliable (S n) d = true -> alive t d = true ->
  sqlx.Rollback t d
  = (None,
     mkDB (<[t := Closed]> (sessions d))
          (filter (fun kv : Z * Tx => kv.2 <> t) (advisory d))
          (tail (script d)) (log d ++ [call_Rollback t])).
Proof. intros [H|[rest H]]%reliable_head A; store_cases. Qed.

(** Ending a session that owns nothing leaves the lock table as it is. *)
Lemma filter_not_owner (t : Tx) (m : gmap Z Tx) :
  map_Forall (fun (_ : Z) (o : Tx) => o <> t) m ->
  filter (fun kv : Z * Tx => kv.2 <> t) m = m.
Proof.
  intros H. apply map_filter_id. intros k o Hk. simpl. eapply H, Hk.
Qed.

Lemma begun_not_owner (d : DB) :
  begun d ->
  map_Forall (fun (_ : Z) (o : Tx) => o <> length (sessions d)) (advisory d).
Proof. intros H k o Hk. specialize (H k o Hk). simpl in H. lia. Qed.

Lemma Lock_unlocked_live (l : Lock.t) (ctx : Context) (d : DB) :
  context_Err ctx = None ->
  Lock.tx l = None -> reliable 3 d = true -> begun d ->
  let r := Lock.Lock l ctx d in
  let tb := length (sessions d) in
  (advisory d !! Lock.value l = None ->
     r.1.1 = None /\ Lock.tx r.1.2 = Some tb /\
     holds tb (Lock.value l) r.2 /\
     forall k, k <> Lock.value l -> advisory r.2 !! k = advisory d !! k) /\
  (forall owner, advisory d !! Lock.value l = Some owner ->
     r.1 = (Some dlock.ErrAcquiredLock, l) /\
     advisory r.2 = advisory d /\
     alive tb r.2 = false /\
     forall t, (t < tb)%nat -> alive t r.2 = alive t d).
Proof.
  intros L E Hr Hb. cbv zeta.
  pose proof (BeginTxx_answers 2 (Lock.db l) ctx d L Hr) as B.
  set (d1 := mkDB (sessions d ++ [Open ctx]) (advisory d) (tail (script d))
                  (log d ++ [call_BeginTxx])) in *.
  assert (Hr1 : reliable 2 d1 = true) by (eapply reliable_tail; eauto).
  assert (Hal : alive (length (sessions d)) d1 = true).
  { unfold alive, d1; simpl. rewrite lookup_app_r, Nat.sub_diag by lia.
    reflexivity. }
  pose proof (try_acquire_answers 1 _ ctx (Lock.value l) d1 L Hr1 Hal) as Q.
  split.
  - intros Hfree. change (advisory d1) with (advisory d) in Q.
    rewrite Hfree in Q.
    rewrite (Lock_acquired _ _ _ _ _ _ _ E B Q eq_refl). cbn [fst snd].
    split; [reflexivity|]. split; [reflexivity|]. split.
    + split; [exact Hal|]. simpl. apply lookup_insert_eq.
    + intros k Hk. simpl. apply lookup_insert_ne. congruence.
  - intros owner Ho. change (advisory d1) with (advisory d) in Q.
    rewrite Ho in Q.
    assert (Hne : owner <> length (sessions d)).
    { specialize (Hb _ _ Ho). simpl in Hb. lia. }
    rewrite bool_decide_eq_false_2 in Q by exact Hne.
    set (d2 := mkDB (sessions d1) (advisory d1) (tail (script d1))
                 (log d1 ++ [call_GetContext (length (sessions d))
                               (pg_try_advisory_xact_lock (Lock.value l))])) in *.
    assert (Hr2 : reliable 1 d2 = true) by (eapply reliable_tail; eauto).
    pose proof (Rollback_answers 0 (length (sessions d)) d2 Hr2 Hal) as R.
    rewrite (Lock_contended _ _ _ _ _ _ _ _ _ E B Q eq_refl R). cbn [fst snd].
    split; [reflexivity|]. split; [|split].
    + simpl. apply filter_not_owner, begun_not_owner, Hb.
    + unfold alive; simpl.
      rewrite list_lookup_insert_eq by (rewrite length_app; simpl; lia).
      reflexivity.
    + intros t Ht. unfold alive; simpl.
      rewrite list_lookup_insert_ne by lia.
      rewrite lookup_app_l by lia. reflexivity.
Qed.

(** X6. Lock on an Unlocked handle, on a store that answers and whose lock
    table names begun transactions only.  With a context that is not done:
    if no session owns the key, Lock returns nil, the handle has the
    session it began, that session owns the key, and no other key of the
    table has changed; if a session owns the key, Lock returns
    ErrAcquiredLock, the handle is as it was, the lock table is as it was,
    the session Lock began is closed again and every other session is as
    it was: the outcome depends on no key but the handle's own.  With a
    context that is done, Lock returns the error of the context and the
    handle, the sessions and the lock table are as they were. *)
Theorem Lock_unlocked_answers (l : Lock.t) (ctx : Context) (d : DB) :
  Lock.tx l = None -> reliable 3 d = true -> begun d ->
  let r := Lock.Lock l ctx d in
  let tb := length (sessions d) in
  (context_Err ctx = None -> advisory d !! Lock.value l = None ->
     r.1.1 = None /\ Lock.tx r.1.2 = Some tb /\
     holds tb (Lock.value l) r.2 /\
     forall k, k <> Lock.value l -> advisory r.2 !! k = advisory d !! k) /\
  (context_Err ctx = None ->
   forall owner, advisory d !! Lock.value l = Some owner ->
     r.1 = (Some dlock.ErrAcquiredLock, l) /\
     advisory r.2 = advisory d /\
     alive tb r.2 = false /\
     forall t, (t < tb)%nat -> alive t r.2 = alive t d) /\
  (forall e, context_Err ctx = Some e ->
     r.1 = (Some e, l) /\
     sessions r.2 = sessions d /\ advisory r.2 = advisory d).
Proof.
  intros E Hr Hb. cbv zeta. split; [|split].
  - intros L. apply (Lock_unlocked_live l ctx d L E Hr Hb).
  - intros L. apply (Lock_unlocked_live l ctx d L E Hr Hb).
  - intros e L. rewrite (Lock_done l ctx d e E L). cbn [fst snd].
    repeat split; reflexivity.
Qed.

Lemma begun_empty_store : begun empty_store.
Proof. intros k t H. unfold empty_store in H. simpl in H.
  rewrite lookup_empty in H. discriminate. Qed.

(** X6 on the test's first handle and the empty store. *)
Lemma Lock_unlocked_answers_witness :
  (Lock.Lock mylock context_TODO empty_store).1.1 = None /\
  holds 0%nat (Lock.value mylock) (Lock.Lock mylock context_TODO empty_store).2.
Proof.
  destruct (Lock_unlocked_answers mylock context_TODO empty_store
              eq_refl eq_refl begun_empty_store) as [H _].
  destruct (H eq_refl eq_refl) as (H1 & _ & H3 & _). split; [exact H1 | exact H3].
Defined.

Lemma Lock_Release_live (l : Lock.t) (ctx : Context) (d : DB) :
  context_Err ctx = None ->
  Lock.tx l = None -> advisory d !! Lock.value l = None ->
  reliable 3 d = true -> begun d ->
  let r := Lock.Lock l ctx d in
  let r' := Lock.Release r.1.2 r.2 in
  r.1.1 = None /\ r'.1 = (None, l) /\
  advisory r'.2 = advisory d /\
  alive (length (sessions d)) r'.2 = false /\
  log r'.2 = (log d ++ [call_BeginTxx;
                        call_GetContext (length (sessions d))
                          (pg_try_advisory_xact_lock (Lock.value l));
                        call_Rollback (length (sessions d))])%list.
Proof.
  intros L E Hfree Hr Hb. cbv zeta.
  pose proof (BeginTxx_answers 2 (Lock.db l) ctx d L Hr) as B.
  set (d1 := mkDB (sessions d ++ [Open ctx]) (advisory d) (tail (script d))
                  (log d ++ [call_BeginTxx])) in *.
  assert (Hr1 : reliable 2 d1 = true) by (eapply reliable_tail; eauto).
  assert (Hal : alive (length (sessions d)) d1 = true).
  { unfold alive, d1; simpl. rewrite lookup_app_r, Nat.sub_diag by lia.
    reflexivity. }
  pose proof (try_acquire_answers 1 _ ctx (Lock.value l) d1 L Hr1 Hal) as Q.
  change (advisory d1) with (advisory d) in Q. rewrite Hfree in Q.
  match type of Q with _ = (_, ?x) => remember x as d2 eqn:Hd2 end.
  assert (Hr2 : reliable 1 d2 = true).
  { eapply reliable_tail; [exact Hr1|]. rewrite Hd2. reflexivity. }
  assert (Hal2 : alive (length (sessions d)) d2 = true).
  { rewrite Hd2. exact Hal. }
  pose proof (Rollback_answers 0 (length (sessions d)) d2 Hr2 Hal2) as R.
  rewrite (Lock_acquired _ _ _ _ _ _ _ E B Q eq_refl). cbn [fst snd].
  erewrite Release_locked by reflexivity. rewrite R. cbn [fst snd].
  subst d2.
  split; [reflexivity|]. split; [|split; [|split]].
  - destruct l as [db tx value]. simpl in E. subst tx. reflexivity.
  - simpl. rewrite map_filter_insert_False by (simpl; tauto).
    rewrite delete_id by exact Hfree.
    apply filter_not_owner, begun_not_owner, Hb.
  - unfold alive; simpl.
    rewrite list_lookup_insert_eq by (rewrite length_app; simpl; lia).
    reflexivity.
  - simpl. rewrite <- !app_assoc. reflexivity.
Qed.

(** X7. Lock then Release is a round trip.  From an Unlocked handle and a
    free key, on a store that answers and whose lock table names begun
    transactions only, Release returns nil, the handle is again as it
    was, the lock table is again as it was, and the session Lock began,
    if any, is closed.  With a context that is not done Lock returns nil
    and the store has had three calls: to begin, to try and to roll back.
    With a context that is done Lock returns the error of the context and
    the store has had the call to begin only. *)
Theorem Lock_Release_round_trip (l : Lock.t) (ctx : Context) (d : DB) :
  Lock.tx l = None -> advisory d !! Lock.value l = None ->
  reliable 3 d = true -> begun d ->
  let r := Lock.Lock l ctx d in
  let r' := Lock.Release r.1.2 r.2 in
  r'.1 = (None, l) /\
  advisory r'.2 = advisory d /\
  alive (length (sessions d)) r'.2 = false /\
  (context_Err ctx = None ->
     r.1.1 = None /\
     log r'.2 = (log d ++ [call_BeginTxx;
                           call_GetContext (length (sessions d))
                             (pg_try_advisory_xact_lock (Lock.value l));
                           call_Rollback (length (sessions d))])%list) /\
  (forall e, context_Err ctx = Some e ->
     r.1.1 = Some e /\ log r'.2 = (log d ++ [call_BeginTxx])%list).
Proof.
  intros E Hfree Hr Hb. cbv zeta.
  destruct (context_Err ctx) as [e|] eqn:L.
  - rewrite (Lock_done l ctx d e E L). cbn [fst snd].
    unfold Lock.Release, Lock.release. rewrite E. unfold ret. cbn [fst snd].
    split; [reflexivity|]. split; [reflexivity|]. split.
    + unfold alive; simpl. rewrite lookup_ge_None_2 by lia. reflexivity.
    + split; [discriminate|]. intros e' [= <-]. split; reflexivity.
  - destruct (Lock_Release_live l ctx d L E Hfree Hr Hb) as (H1 & H2 & H3 & H4 & H5).
    split; [exact H2|]. split; [exact H3|]. split; [exact H4|].
    split; [intros _; split; assumption | discriminate].
Qed.

(** X7 on the test's first handle and the empty store. *)
Lemma Lock_Release_round_trip_witness :
  (Lock.Release (Lock.Lock mylock context_TODO empty_store).1.2
     (Lock.Lock mylock context_TODO empty_store).2).1 = (None, mylock) /\
  advisory (Lock.Release (Lock.Lock mylock context_TODO empty_store).1.2
              (Lock.Lock mylock context_TODO empty_store).2).2
  = advisory empty_store.
Proof.
  destruct (Lock_Release_round_trip mylock context_TODO empty_store
              eq_refl eq_refl eq_refl begun_empty_store)
    as (H1 & H2 & _).
  split; [exact H1 | exact H2].
Defined.

(** ** WaitForLock, further *)

Section WaitForLock_more.
Context {W : Type} {l : dlock.Lock.t W}.

(** X8. WaitForLock never returns nil without a call of Lock that returned
    nil, so without at least one call; and when it returns the timeout
    error, or is still waiting, it has called Lock once for every tick
    before Done and each of those calls failed. *)
Theorem WaitForLock_attempts_count (sched : list dlock.selected) (ctx : Context)
    (ctx_Err : error) (w : W) :
  let r := dlock.WaitForLock sched ctx ctx_Err w in
  let n := dlock.WaitForLock_attempts sched ctx w in
  (r.1 = Some None -> (1 <= n <= ticks_before_Done sched)%nat) /\
  (r.1 <> Some None -> n = ticks_before_Done sched).
Proof.
  cbv zeta. revert w. induction sched as [|[|] sched IH]; intros w; simpl.
  - split; [discriminate | reflexivity].
  - split; [discriminate | reflexivity].
  - destruct (dlock.Lock.Lock ctx w) as [[err|] w'] eqn:L; simpl.
    + destruct (IH w') as [IH1 IH2]. split.
      * intros H. specialize (IH1 H). lia.
      * intros H. rewrite (IH2 H). reflexivity.
    + split; [intros _; lia | congruence].
Qed.

End WaitForLock_more.

Lemma never_fails_reliable (n : nat) (d : DB) : script d = [] -> reliable n d = true.
Proof. unfold reliable. intros ->. destruct n; reflexivity. Qed.

(** Lock on an Unlocked handle, on a store that never fails: it acquires
    and returns nil, or returns ErrAcquiredLock and leaves the handle as it
    was; three calls reach the store in the second case. *)
Lemma Lock_never_fails (l : Lock.t) (ctx : Context) (d : DB) :
  context_Err ctx = None ->
  Lock.tx l = None -> script d = [] ->
  script (Lock.Lock l ctx d).2 = [] /\
  (((Lock.Lock l ctx d).1.1 = None /\
    exists t, Lock.tx (Lock.Lock l ctx d).1.2 = Some t /\
              holds t (Lock.value l) (Lock.Lock l ctx d).2) \/
   ((Lock.Lock l ctx d).1 = (Some dlock.ErrAcquiredLock, l) /\
    length (log (Lock.Lock l ctx d).2) = (length (log d) + 3)%nat /\
    forall t k, t <> length (sessions d) -> holds t k d ->
                holds t k (Lock.Lock l ctx d).2)).
Proof.
  intros L E Hs.
  pose proof (BeginTxx_answers 0 (Lock.db l) ctx d L (never_fails_reliable 1 d Hs)) as B.
  match type of B with _ = (_, ?x) => remember x as d1 eqn:Hd1 end.
  assert (Hs1 : script d1 = []) by (rewrite Hd1; simpl; rewrite Hs; reflexivity).
  assert (Hal : alive (length (sessions d)) d1 = true).
  { rewrite Hd1. unfold alive; simpl.
    rewrite lookup_app_r, Nat.sub_diag by lia. reflexivity. }
  pose proof (try_acquire_answers 0 _ ctx (Lock.value l) d1 L
                (never_fails_reliable 1 d1 Hs1) Hal) as Q.
  destruct (advisory d1 !! Lock.value l) as [owner|] eqn:Ho.
  - match type of Q with _ = (_, ?x) => remember x as d2 eqn:Hd2 end.
    assert (Hs2 : script d2 = []) by (rewrite Hd2; simpl; rewrite Hs1; reflexivity).
    destruct (bool_decide (owner = length (sessions d))) eqn:Hdec.
    + apply bool_decide_eq_true_1 in Hdec. subst owner.
      rewrite (Lock_acquired _ _ _ _ _ _ _ E B Q eq_refl). cbn [fst snd].
      split; [exact Hs2|]. left. split; [reflexivity|].
      eexists. split; [reflexivity|]. rewrite Hd2. split; [exact Hal | exact Ho].
    + assert (Hal2 : alive (length (sessions d)) d2 = true)
        by (rewrite Hd2; exact Hal).
      pose proof (Rollback_answers 0 _ d2 (never_fails_reliable 1 d2 Hs2) Hal2) as R.
      rewrite (Lock_contended _ _ _ _ _ _ _ _ _ E B Q eq_refl R). cbn [fst snd].
      split; [simpl; rewrite Hs2; reflexivity|]. right.
      split; [reflexivity|]. split.
      * rewrite Hd2, Hd1. simpl. rewrite !length_app. simpl. lia.
      * intros t k Hne Hh.
        apply (holds_frame t k (end_session (length (sessions d)) d2));
          [reflexivity | reflexivity |].
        apply holds_end_session; [exact Hne|].
        apply (holds_frame t k d1); [rewrite Hd2; reflexivity
                                    | rewrite Hd2; reflexivity |].
        pose proof (BeginTxx_holds t k (Lock.db l) ctx d Hh) as H1.
        rewrite B in H1. exact H1.
  - match type of Q with _ = (_, ?x) => remember x as d2 eqn:Hd2 end.
    rewrite (Lock_acquired _ _ _ _ _ _ _ E B Q eq_refl). cbn [fst snd].
    split; [rewrite Hd2; simpl; rewrite Hs1; reflexivity|]. left.
    split; [reflexivity|]. eexists. split; [reflexivity|].
    rewrite Hd2. split; [exact Hal|]. simpl. apply lookup_insert_eq.
Qed.

Lemma Lock_held_never_fails (l : Lock.t) (ctx : Context) (d : DB) (ta : Tx) :
  context_Err ctx = None ->
  Lock.tx l = None -> script d = [] -> holds ta (Lock.value l) d ->
  (Lock.Lock l ctx d).1 = (Some dlock.ErrAcquiredLock, l) /\
  script (Lock.Lock l ctx d).2 = [] /\
  holds ta (Lock.value l) (Lock.Lock l ctx d).2 /\
  length (log (Lock.Lock l ctx d).2) = (length (log d) + 3)%nat.
Proof.
  intros L E Hs Hh.
  destruct (Lock_evolves l ctx d) as ((_ & _ & Hev) & Hafter).
  assert (Hh' : holds ta (Lock.value l) (Lock.Lock l ctx d).2).
  { apply Hev; [|exact Hh]. intros [Hl|Hl]; [congruence|].
    destruct Hh as [Ha _]. apply alive_lt in Ha. lia. }
  destruct (Lock_never_fails l ctx d L E Hs) as [Hs' [(_ & t & Ht & Hht)|(Hr & Hlog & _)]].
  - exfalso. destruct (Hafter t Ht) as [(Hl & _)|(_ & -> & _)]; [congruence|].
    destruct Hh' as [_ Ho], Hht as [_ Ho']. rewrite Ho in Ho'.
    injection Ho' as ->. destruct Hh as [Ha _]. apply alive_lt in Ha. lia.
  - auto.
Qed.

(** X10. Waiting for a lock that stays held.  The handle is Unlocked, a
    session owns its key, the store never fails, and the select fires on
    [n] ticks and then on Done: WaitForLock returns the timeout error
    after exactly [n] calls of Lock; the handle is still Unlocked and the
    owner still owns the key.  Each call of Lock made while the context is
    not done is three calls to the store (begin, try, roll back); each one
    made once it is done is the refused call to begin and no more. *)
Theorem WaitForLock_held_times_out (n : nat) (l : Lock.t) (ta : Tx)
    (ctx : Context) (ctx_Err : error) (d : DB) (rest : list dlock.selected) :
  Lock.tx l = None -> holds ta (Lock.value l) d -> script d = [] ->
  let sched := (repeat dlock.case_tick n ++ dlock.case_Done :: rest)%list in
  let r := dlock.WaitForLock sched ctx ctx_Err (l, d) in
  r.1 = Some (Wrap (Some ctx_Err) "timeout to acquired lock") /\
  r.2.1 = l /\
  holds ta (Lock.value l) r.2.2 /\
  dlock.WaitForLock_attempts sched ctx (l, d) = n /\
  length (log r.2.2)
  = (length (log d) + match context_Err ctx with None => 3 | Some _ => 1 end * n)%nat.
Proof.
  intros E Hh Hs. cbv zeta. revert d Hh Hs.
  induction n as [|n IH]; intros d Hh Hs.
  - cbn. split; [reflexivity|]. split; [reflexivity|]. split; [exact Hh|].
    split; [reflexivity | lia].
  - assert (H : (Lock.Lock l ctx d).1.1 <> None /\ (Lock.Lock l ctx d).1.2 = l /\
                script (Lock.Lock l ctx d).2 = [] /\
                holds ta (Lock.value l) (Lock.Lock l ctx d).2 /\
                length (log (Lock.Lock l ctx d).2)
                = (length (log d)
                   + match context_Err ctx with None => 3 | Some _ => 1 end)%nat).
    { destruct (context_Err ctx) as [e|] eqn:L.
      - rewrite (Lock_done l ctx d e E L). cbn [fst snd].
        split; [discriminate|]. split; [reflexivity|]. split; [exact Hs|].
        split; [exact Hh|]. simpl. rewrite length_app. reflexivity.
      - destruct (Lock_held_never_fails l ctx d ta L E Hs Hh) as (Hr & Hs' & Hh' & Hlog).
        rewrite Hr. cbn [fst snd]. split; [discriminate|]. auto. }
    destruct H as (Hr & Hl & Hs' & Hh' & Hlog).
    cbn [repeat app dlock.WaitForLock dlock.WaitForLock_attempts
         dlock.Lock.Lock Lock_implements].
    destruct (Lock.Lock l ctx d) as [[err l'] d'] eqn:L.
    cbn [fst snd] in *. subst l'.
    destruct err as [err|]; [|congruence].
    destruct (IH d' Hh' Hs') as (H1 & H2 & H3 & H4 & H5).
    split; [exact H1|]. split; [exact H2|]. split; [exact H3|].
    split; [rewrite H4; reflexivity | lia].
Qed.

(** X10 in the test's setting: the second handle waits through one tick
    while the first holds "mylock", then its deadline passes. *)
Lemma WaitForLock_held_times_out_witness :
  (dlock.WaitForLock [dlock.case_tick; dlock.case_Done] context_TODO
     context_DeadlineExceeded (myLock2, store_locked)).1
  = Some (Wrap (Some context_DeadlineExceeded) "timeout to acquired lock").
Proof.
  assert (H : holds 0%nat (Lock.value myLock2) store_locked)
    by (split; vm_compute; reflexivity).
  apply (WaitForLock_held_times_out 1 myLock2 0%nat context_TODO
           context_DeadlineExceeded store_locked [] eq_refl H eq_refl).
Defined.

(** X11. On a store that never fails, a nil from WaitForLock means the
    lock is held: the handle, Unlocked before, is Locked on a session that
    is open and owns the key. *)
Theorem WaitForLock_nil_is_locked (sched : list dlock.selected) (ctx : Context)
    (ctx_Err : error) (l : Lock.t) (d : DB) :
  Lock.tx l = None -> script d = [] ->
  (dlock.WaitForLock sched ctx ctx_Err (l, d)).1 = Some None ->
  exists t,
    Lock.tx (dlock.WaitForLock sched ctx ctx_Err (l, d)).2.1 = Some t /\
    holds t (Lock.value l) (dlock.WaitForLock sched ctx ctx_Err (l, d)).2.2.
Proof.
  intros E. revert d. induction sched as [|[|] sched IH]; intros d Hs; simpl;
    try discriminate.
  destruct (context_Err ctx) as [e|] eqn:Lc.
  { rewrite (Lock_done l ctx d e E Lc). apply IH. exact Hs. }
  destruct (Lock_never_fails l ctx d Lc E Hs) as [Hs' [(Hn & t & Ht & Hh)|(Hr & _)]];
    destruct (Lock.Lock l ctx d) as [[err l'] d'] eqn:L; cbn [fst snd] in *.
  - subst err. intros _. simpl. eauto.
  - injection Hr as -> ->. apply IH, Hs'.
Qed.

(** X11 on the test's first handle and the empty store. *)
Lemma WaitForLock_nil_is_locked_witness :
  exists t,
    Lock.tx (dlock.WaitForLock [dlock.case_tick] context_TODO context_Canceled
               (mylock, empty_store)).2.1 = Some t /\
    holds t (Lock.value mylock)
      (dlock.WaitForLock [dlock.case_tick] context_TODO context_Canceled
         (mylock, empty_store)).2.2.
Proof.
  apply (WaitForLock_nil_is_locked [dlock.case_tick] context_TODO
           context_Canceled mylock empty_store eq_refl eq_refl).
  reflexivity.
Defined.

(** ** The lease and its monitor *)

(** The probe in a session that has ended fails, whatever the driver
    does. *)
Lemma probe_ended (t : Tx) (ctx : Context) (d : DB) :
  alive t d = false -> (probe t ctx d).1.2 <> None.
Proof. intros H. store_cases; try discriminate; congruence. Qed.

(** The probe in an open session, on a store that never fails, succeeds
    and changes the log only. *)
Lemma probe_never_fails (t : Tx) (ctx : Context) (d : DB) :
  context_Err ctx = None ->
  alive t d = true -> script d = [] ->
  probe t ctx d
  = (({| Succeed := true |}, None),
     mkDB (sessions d) (advisory d) []
          (log d ++ [call_GetContext t select_true])).
Proof. intros L H Hs. store_cases. Qed.

(** X12. Loss of the lease is detected at the next tick.  The goroutine of
    ContextLock runs on a Locked handle whose session has ended (the server
    or the network ended it): at the next tick IsLock fails, the derived
    context is cancelled, the goroutine has returned, and the handle is
    Unlocked, with no call of Release by anyone. *)
Theorem monitor_detects_lease_loss (ctx : Context)
    (m : dlock.state (Lock.t * DB)) (t : Tx) :
  dlock.monitor m = dlock.Running ->
  Lock.tx (dlock.world m).1 = Some t ->
  alive t (dlock.world m).2 = false ->
  exists m',
    dlock.step ctx m (dlock.ev_select dlock.case_tick) = Some m' /\
    dlock.monitor m' = dlock.Exited /\
    dlock.newCtx_Err m' <> None /\
    Lock.tx (dlock.world m').1 = None /\
    Lock.value (dlock.world m').1 = Lock.value (dlock.world m).1.
Proof.
  intros Hm Ht Ha. destruct m as [[l d] ce ne mon pr]; simpl in *. subst mon.
  set (newCtx := observed (context_WithCancel ctx) ne).
  pose proof (probe_ended t newCtx d Ha) as Hp.
  destruct (probe t newCtx d) as [[res [e|]] d1] eqn:P;
    cbn [fst snd] in Hp; [|congruence].
  destruct (sqlx.Rollback t d1) as [rb d2] eqn:R.
  unfold dlock.step, dlock.monitor_loop; simpl.
  unfold Lock.IsLock. fold newCtx.
  rewrite (isLock_lost l newCtx d d1 d2 t res e rb Ht P R).
  unfold dlock.cancel; simpl.
  destruct rb, ne; (eexists; split; [reflexivity|]; simpl;
                    split; [reflexivity|]; split; [discriminate|];
                    split; reflexivity).
Qed.

(** X12 in the test's setting: ContextLock on the empty store, then the
    server ends the session; the next tick cancels the derived context. *)
Lemma monitor_detects_lease_loss_witness :
  let s := (dlock.ContextLock context_TODO
              (dlock.initial (mylock, empty_store) None)).2 in
  let m := dlock.set_world ((dlock.world s).1, terminate 0%nat (dlock.world s).2) s in
  exists m',
    dlock.step context_TODO m (dlock.ev_select dlock.case_tick) = Some m' /\
    dlock.newCtx_Err m' <> None.
Proof.
  cbv zeta.
  set (s := (dlock.ContextLock context_TODO
               (dlock.initial (mylock, empty_store) None)).2).
  set (m := dlock.set_world
              ((dlock.world s).1, terminate 0%nat (dlock.world s).2) s).
  assert (Hm : dlock.monitor m = dlock.Running) by (vm_compute; reflexivity).
  assert (Ht : Lock.tx (dlock.world m).1 = Some 0%nat) by (vm_compute; reflexivity).
  assert (Ha : alive 0%nat (dlock.world m).2 = false) by (vm_compute; reflexivity).
  destruct (monitor_detects_lease_loss context_TODO m 0%nat Hm Ht Ha)
    as (m' & H1 & _ & H2 & _).
  exists m'. split; [exact H1 | exact H2].
Defined.

(** X13. A lease that is not lost is not cancelled.  While the derived
    context is not done, the session of the Locked handle is open and the
    store never fails, [n] ticks leave the goroutine running, the derived
    context not done, and the handle, the sessions and the lock table
    untouched; the goroutine has probed [n] times more. *)
Theorem monitor_keeps_lease (n : nat) (ctx : Context)
    (m : dlock.state (Lock.t * DB)) (t : Tx) :
  dlock.monitor m = dlock.Running ->
  context_Err ctx = None ->
  dlock.newCtx_Err m = None ->
  Lock.tx (dlock.world m).1 = Some t ->
  alive t (dlock.world m).2 = true ->
  script (dlock.world m).2 = [] ->
  exists m',
    dlock.run ctx m (repeat (dlock.ev_select dlock.case_tick) n) = Some m' /\
    dlock.monitor m' = dlock.Running /\
    dlock.newCtx_Err m' = None /\
    (dlock.world m').1 = (dlock.world m).1 /\
    sessions (dlock.world m').2 = sessions (dlock.world m).2 /\
    advisory (dlock.world m').2 = advisory (dlock.world m).2 /\
    dlock.probes m' = (dlock.probes m + n)%nat.
Proof.
  intros Hm L. revert m Hm.
  induction n as [|n IH]; intros m Hm Hne Ht Ha Hs.
  - exists m. cbn. repeat split; auto.
  - destruct m as [[l d] ce ne mon pr]; simpl in Hm, Hne, Ht, Ha, Hs.
    subst mon ne.
    pose proof (probe_never_fails t (context_WithCancel ctx) d L Ha Hs) as P.
    match type of P with _ = (_, ?x) => remember x as d1 eqn:Hd1 end.
    assert (Hstep : dlock.step ctx (dlock.mkstate (l, d) ce None dlock.Running pr)
                      (dlock.ev_select dlock.case_tick)
                    = Some (dlock.mkstate (l, d1) ce None dlock.Running (S pr))).
    { unfold dlock.step, dlock.monitor_loop; simpl. unfold Lock.IsLock.
      rewrite (isLock_alive l (context_WithCancel ctx) d d1 t _ Ht P).
      reflexivity. }
    assert (Ha1 : alive t d1 = true) by (rewrite Hd1; exact Ha).
    assert (Hs1 : script d1 = []) by (rewrite Hd1; reflexivity).
    destruct (IH (dlock.mkstate (l, d1) ce None dlock.Running (S pr))
                eq_refl eq_refl Ht Ha1 Hs1)
      as (m' & Hrun & H1 & H2 & H3 & H4 & H5 & H6).
    exists m'.
    change (repeat (dlock.ev_select dlock.case_tick) (S n))
      with (dlock.ev_select dlock.case_tick
            :: repeat (dlock.ev_select dlock.case_tick) n).
    change (dlock.run ctx (dlock.mkstate (l, d) ce None dlock.Running pr)
              (dlock.ev_select dlock.case_tick
               :: repeat (dlock.ev_select dlock.case_tick) n))
      with (match dlock.step ctx (dlock.mkstate (l, d) ce None dlock.Running pr)
                    (dlock.ev_select dlock.case_tick) with
            | Some s' => dlock.run ctx s'
                           (repeat (dlock.ev_select dlock.case_tick) n)
            | None => None
            end).
    rewrite Hstep. split; [exact Hrun|].
    cbn [dlock.world dlock.newCtx_Err dlock.probes fst snd] in *.
    rewrite Hd1 in H4, H5. cbn [sessions advisory] in H4, H5.
    repeat split; auto. lia.
Qed.

(** X13 in the test's setting: two ticks after ContextLock. *)
Lemma monitor_keeps_lease_witness :
  exists m',
    dlock.run context_TODO
      (dlock.ContextLock context_TODO
         (dlock.initial (mylock, empty_store) None)).2
      (repeat (dlock.ev_select dlock.case_tick) 2) = Some m' /\
    dlock.monitor m' = dlock.Running.
Proof.
  set (m := (dlock.ContextLock context_TODO
               (dlock.initial (mylock, empty_store) None)).2).
  assert (Hm : dlock.monitor m = dlock.Running) by (vm_compute; reflexivity).
  assert (Ht : Lock.tx (dlock.world m).1 = Some 0%nat) by (vm_compute; reflexivity).
  assert (Ha : alive 0%nat (dlock.world m).2 = true) by (vm_compute; reflexivity).
  assert (Hs : script (dlock.world m).2 = []) by (vm_compute; reflexivity).
  assert (Hn : dlock.newCtx_Err m = None) by (vm_compute; reflexivity).
  destruct (monitor_keeps_lease 2 context_TODO m 0%nat Hm eq_refl Hn Ht Ha Hs)
    as (m' & H1 & H2 & _).
  exists m'. split; [exact H1 | exact H2].
Defined.

(** ** What a call tells and what it costs *)

(** X14. A handle is never left Locked by a call that returned an error:
    after any call of Lock, IsLock or Release, on any store, if the handle
    has a transaction then the call returned nil.  So every error of Lock
    and IsLock comes with an Unlocked handle. *)
Theorem locked_after_means_nil (m : method) (l : Lock.t) (d : DB) (t : Tx) :
  Lock.tx (invoke m l d).1.2 = Some t -> (invoke m l d).1.1 = None.
Proof.
  assert (HisLock : forall ctx,
            Lock.tx (Lock.isLock l ctx d).1.2 = Some t ->
            (Lock.isLock l ctx d).1.1 = None).
  { intros ctx. destruct (Lock.tx l) as [t0|] eqn:E.
    - destruct (probe t0 ctx d) as [[res [e|]] d1] eqn:P.
      + destruct (sqlx.Rollback t0 d1) as [rb d2] eqn:R.
        rewrite (isLock_lost l ctx d d1 d2 t0 res e rb E P R). discriminate.
      + rewrite (isLock_alive l ctx d d1 t0 res E P). reflexivity.
    - rewrite (isLock_unlocked l ctx d E). cbn [fst snd]. congruence. }
  destruct m as [ctx|ctx|]; simpl.
  - destruct (Lock.tx l) as [t0|] eqn:E.
    + rewrite (Lock_relock l ctx d t0 E). apply HisLock.
    + destruct (sqlx.BeginTxx (Lock.db l) ctx d) as [[tb|e] d1] eqn:B.
      * destruct (try_acquire tb ctx (Lock.value l) d1) as [[res [e|]] d2] eqn:Q.
        -- destruct (sqlx.Rollback tb d2) as [rb d3] eqn:R.
           rewrite (Lock_query_fails _ _ _ _ _ _ _ _ _ _ E B Q R).
           cbn [fst snd]. congruence.
        -- destruct (Succeed res) eqn:S.
           ++ rewrite (Lock_acquired _ _ _ _ _ _ _ E B Q S). reflexivity.
           ++ destruct (sqlx.Rollback tb d2) as [rb d3] eqn:R.
              rewrite (Lock_contended _ _ _ _ _ _ _ _ _ E B Q S R).
              cbn [fst snd]. congruence.
      * rewrite (Lock_begin_fails _ _ _ _ _ E B). cbn [fst snd]. congruence.
  - apply HisLock.
  - destruct (release_evolves l d) as [_ H]. unfold Lock.Release. congruence.
Qed.

(** X14 on the test's first handle: it is Locked after Lock, and Lock
    returned nil. *)
Lemma locked_after_means_nil_witness :
  Lock.tx (invoke (method_Lock context_TODO) mylock empty_store).1.2 = Some 0%nat /\
  (invoke (method_Lock context_TODO) mylock empty_store).1.1 = None.
Proof.
  split; [reflexivity|].
  apply (locked_after_means_nil (method_Lock context_TODO) mylock empty_store
           0%nat eq_refl).
Defined.

Lemma probe_log (t : Tx) (ctx : Context) (d d1 : DB) (r : dblock * option error) :
  probe t ctx d = (r, d1) -> log d1 = (log d ++ [call_GetContext t select_true])%list.
Proof.
  intros P. pose proof (GetContext_log t ctx {| Succeed := false |} select_true d) as H.
  fold (probe t ctx) in H. rewrite P in H. exact H.
Qed.

Lemma try_acquire_log (t : Tx) (ctx : Context) (key : Z) (d d1 : DB)
    (r : dblock * option error) :
  try_acquire t ctx key d = (r, d1) ->
  log d1 = (log d ++ [call_GetContext t (pg_try_advisory_xact_lock key)])%list.
Proof.
  intros P.
  pose proof (GetContext_log t ctx {| Succeed := false |}
                (pg_try_advisory_xact_lock key) d) as H.
  fold (try_acquire t ctx key) in H. rewrite P in H. exact H.
Qed.

Lemma Rollback_log_eq (t : Tx) (d d1 : DB) (r : option error) :
  sqlx.Rollback t d = (r, d1) -> log d1 = (log d ++ [call_Rollback t])%list.
Proof. intros P. pose proof (Rollback_log t d) as H. rewrite P in H. exact H. Qed.

Lemma BeginTxx_log_eq (db : sqlx_DB) (ctx : Context) (d d1 : DB) (r : Tx + error) :
  sqlx.BeginTxx db ctx d = (r, d1) -> log d1 = (log d ++ [call_BeginTxx])%list.
Proof. intros P. pose proof (BeginTxx_log db ctx d) as H. rewrite P in H. exact H. Qed.

(** X15. Every call costs a bounded number of calls to the store, which
    are added to the log and leave what was logged before in place:
    Release at most one, IsLock at most two, Lock at most three.  Through
    an Unlocked handle, IsLock and Release send nothing; through a Locked
    handle, no call begins a session. *)
Theorem calls_per_method (m : method) (l : Lock.t) (d : DB) :
  exists calls,
    log (invoke m l d).2 = (log d ++ calls)%list /\
    (length calls <= match m with
                     | method_Lock _ => 3
                     | method_IsLock _ => 2
                     | method_Release => 1
                     end)%nat /\
    (Lock.tx l = None -> (forall ctx, m <> method_Lock ctx) -> calls = []) /\
    (Lock.tx l <> None -> ~ In call_BeginTxx calls).
Proof.
  assert (HisLock : forall ctx, exists calls,
            log (Lock.isLock l ctx d).2 = (log d ++ calls)%list /\
            (length calls <= 2)%nat /\
            (Lock.tx l = None -> calls = []) /\
            ~ In call_BeginTxx calls).
  { intros ctx. destruct (Lock.tx l) as [t0|] eqn:E.
    - destruct (probe t0 ctx d) as [[res [e|]] d1] eqn:P.
      + destruct (sqlx.Rollback t0 d1) as [rb d2] eqn:R.
        rewrite (isLock_lost l ctx d d1 d2 t0 res e rb E P R). cbn [snd].
        exists [call_GetContext t0 select_true; call_Rollback t0].
        rewrite (Rollback_log_eq _ _ _ _ R), (probe_log _ _ _ _ _ P), <- app_assoc.
        split; [reflexivity|]. split; [simpl; lia|]. split; [discriminate|].
        intros [H|[H|[]]]; discriminate.
      + rewrite (isLock_alive l ctx d d1 t0 res E P). cbn [snd].
        exists [call_GetContext t0 select_true].
        rewrite (probe_log _ _ _ _ _ P).
        split; [reflexivity|]. split; [simpl; lia|]. split; [discriminate|].
        intros [H|[]]; discriminate.
    - rewrite (isLock_unlocked l ctx d E). cbn [snd]. exists [].
      rewrite app_nil_r. split; [reflexivity|]. split; [simpl; lia|].
      split; [reflexivity|]. intros []. }
  destruct m as [ctx|ctx|]; simpl.
  - destruct (Lock.tx l) as [t0|] eqn:E.
    + rewrite (Lock_relock l ctx d t0 E).
      destruct (HisLock ctx) as (calls & H1 & H2 & _ & H4).
      exists calls. split; [exact H1|]. split; [lia|].
      split; [discriminate | intros _; exact H4].
    + destruct (sqlx.BeginTxx (Lock.db l) ctx d) as [[tb|e] d1] eqn:B.
      * destruct (try_acquire tb ctx (Lock.value l) d1) as [[res err] d2] eqn:Q.
        assert (Hrb : forall rb d3, sqlx.Rollback tb d2 = (rb, d3) ->
                  log d3 = (log d ++ [call_BeginTxx;
                              call_GetContext tb (pg_try_advisory_xact_lock (Lock.value l));
                              call_Rollback tb])%list).
        { intros rb d3 R.
          rewrite (Rollback_log_eq _ _ _ _ R), (try_acquire_log _ _ _ _ _ _ Q),
            (BeginTxx_log_eq _ _ _ _ _ B), <- !app_assoc. reflexivity. }
        destruct err as [e|].
        -- destruct (sqlx.Rollback tb d2) as [rb d3] eqn:R.
           rewrite (Lock_query_fails _ _ _ _ _ _ _ _ _ _ E B Q R). cbn [snd].
           eexists. split; [apply (Hrb rb d3 eq_refl)|].
           split; [simpl; lia|]. split; [|congruence].
           intros _ H. destruct (H ctx eq_refl).
        -- destruct (Succeed res) eqn:S.
           ++ rewrite (Lock_acquired _ _ _ _ _ _ _ E B Q S). cbn [snd].
              exists [call_BeginTxx;
                      call_GetContext tb (pg_try_advisory_xact_lock (Lock.value l))].
              rewrite (try_acquire_log _ _ _ _ _ _ Q),
                (BeginTxx_log_eq _ _ _ _ _ B), <- app_assoc.
              split; [reflexivity|]. split; [simpl; lia|]. split; [|congruence].
              intros _ H. destruct (H ctx eq_refl).
           ++ destruct (sqlx.Rollback tb d2) as [rb d3] eqn:R.
              rewrite (Lock_contended _ _ _ _ _ _ _ _ _ E B Q S R). cbn [snd].
              eexists. split; [apply (Hrb rb d3 eq_refl)|].
              split; [simpl; lia|]. split; [|congruence].
              intros _ H. destruct (H ctx eq_refl).
      * rewrite (Lock_begin_fails _ _ _ _ _ E B). cbn [snd].
        exists [call_BeginTxx]. rewrite (BeginTxx_log_eq _ _ _ _ _ B).
        split; [reflexivity|]. split; [simpl; lia|]. split; [|congruence].
        intros _ H. destruct (H ctx eq_refl).
  - destruct (HisLock ctx) as (calls & H1 & H2 & H3 & H4).
    exists calls. split; [exact H1|]. split; [exact H2|].
    split; [intros Hn _; apply H3, Hn | intros _; exact H4].
  - unfold Lock.Release, Lock.release, bind, ret.
    destruct (Lock.tx l) as [t0|] eqn:E.
    + destruct (sqlx.Rollback t0 d) as [rb d1] eqn:R. cbn [snd].
      exists [call_Rollback t0]. rewrite (Rollback_log_eq _ _ _ _ R).
      split; [reflexivity|]. split; [simpl; lia|]. split; [discriminate|].
      intros _ [H|[]]; discriminate.
    + exists []. cbn [snd]. rewrite app_nil_r.
      split; [reflexivity|]. split; [simpl; lia|]. split; [reflexivity|].
      intros H. congruence.
Qed.

Lemma try_acquire_owner (t0 : Tx) (ctx : Context) (key k : Z) (d : DB) (t : Tx) :
  advisory (try_acquire t0 ctx key d).2 !! k = Some t ->
  advisory d !! k = Some t \/ (k = key /\ t = t0).
Proof.
  intros H. store_cases.
  all: match goal with
       | H : <[?a := _]> _ !! ?b = Some _ |- _ =>
           destruct (decide (a = b)) as [->|Hne];
           [rewrite lookup_insert_eq in H; injection H as <-; auto
           |rewrite lookup_insert_ne in H by exact Hne; auto]
       end.
Qed.

Lemma Rollback_owner (t0 : Tx) (d : DB) (k : Z) (t : Tx) :
  advisory (sqlx.Rollback t0 d).2 !! k = Some t -> advisory d !! k = Some t.
Proof.
  destruct (Rollback_cases t0 d) as [[_ Ha]|[_ Ha]]; rewrite Ha; [auto|].
  unfold end_session; simpl. intros H.
  apply map_lookup_filter_Some in H. tauto.
Qed.

Lemma isLock_owner (l : Lock.t) (ctx : Context) (d : DB) (k : Z) (t : Tx) :
  advisory (Lock.isLock l ctx d).2 !! k = Some t -> advisory d !! k = Some t.
Proof.
  destruct (Lock.tx l) as [t0|] eqn:E.
  - pose proof (probe_sessions t0 ctx d) as [_ Ha].
    destruct (probe t0 ctx d) as [[res [e|]] d1] eqn:P; cbn [snd] in Ha.
    + pose proof (Rollback_owner t0 d1 k t) as Hr.
      destruct (sqlx.Rollback t0 d1) as [rb d2] eqn:R; cbn [snd] in Hr.
      rewrite (isLock_lost l ctx d d1 d2 t0 res e rb E P R). cbn [snd].
      intros H. rewrite <- Ha. auto.
    + rewrite (isLock_alive l ctx d d1 t0 res E P). cbn [snd].
      rewrite Ha. auto.
  - rewrite (isLock_unlocked l ctx d E). auto.
Qed.

(** X16. No call through a handle takes an advisory lock that is not the
    handle's own.  After any call, on any store, the owner of a key is the
    owner it had before, with one exception: the handle's own key, taken
    by Lock through an Unlocked handle for the session it has just begun.
    IsLock and Release take no lock at all. *)
Theorem takes_own_key_only (m : method) (l : Lock.t) (d : DB) (k : Z) (t : Tx) :
  advisory (invoke m l d).2 !! k = Some t ->
  advisory d !! k = Some t \/
  (k = Lock.value l /\ t = length (sessions d) /\ Lock.tx l = None /\
   exists ctx, m = method_Lock ctx).
Proof.
  destruct m as [ctx|ctx|]; simpl.
  - destruct (Lock.tx l) as [t0|] eqn:E.
    + rewrite (Lock_relock l ctx d t0 E). intros H. left.
      eapply isLock_owner, H.
    + destruct (sqlx.BeginTxx (Lock.db l) ctx d) as [[tb|e] d1] eqn:B.
      * pose proof (BeginTxx_inl _ _ _ _ _ B) as (Htb & _ & Ha1 & _).
        pose proof (try_acquire_owner tb ctx (Lock.value l) k d1 t) as Hq.
        rewrite Ha1 in Hq.
        assert (Hout : advisory d !! k = Some t \/ k = Lock.value l /\ t = tb ->
                  advisory d !! k = Some t \/
                  (k = Lock.value l /\ t = length (sessions d) /\ @None Tx = None /\
                   exists ctx0, method_Lock ctx = method_Lock ctx0)).
        { intros [H|[H1 H2]]; [left; exact H|right].
          subst. repeat split; eauto. }
        destruct (try_acquire tb ctx (Lock.value l) d1) as [[res [e|]] d2] eqn:Q;
          cbn [snd] in Hq.
        -- pose proof (Rollback_owner tb d2 k t) as Hr.
           destruct (sqlx.Rollback tb d2) as [rb d3] eqn:R; cbn [snd] in Hr.
           rewrite (Lock_query_fails _ _ _ _ _ _ _ _ _ _ E B Q R). cbn [snd].
           intros H. apply Hout, Hq, Hr, H.
        -- destruct (Succeed res) eqn:S.
           ++ rewrite (Lock_acquired _ _ _ _ _ _ _ E B Q S). cbn [snd].
              intros H. apply Hout, Hq, H.
           ++ pose proof (Rollback_owner tb d2 k t) as Hr.
              destruct (sqlx.Rollback tb d2) as [rb d3] eqn:R; cbn [snd] in Hr.
              rewrite (Lock_contended _ _ _ _ _ _ _ _ _ E B Q S R). cbn [snd].
              intros H. apply Hout, Hq, Hr, H.
      * pose proof (BeginTxx_inr _ _ _ _ _ B) as (_ & Ha1 & _).
        rewrite (Lock_begin_fails _ _ _ _ _ E B). cbn [snd].
        rewrite Ha1. auto.
  - intros H. left. eapply isLock_owner, H.
  - unfold Lock.Release, Lock.release, bind, ret.
    destruct (Lock.tx l) as [t0|].
    + pose proof (Rollback_owner t0 d k t) as Hr.
      destruct (sqlx.Rollback t0 d) as [rb d1]; cbn [snd] in *. auto.
    + cbn [snd]. auto.
Qed.

(** X16 on the test's store: the key of "mylock", owned once the first
    handle has locked, was taken by that Lock for its new session. *)
Lemma takes_own_key_only_witness :
  advisory (invoke (method_Lock context_TODO) mylock empty_store).2
    !! Lock.value mylock = Some 0%nat /\
  advisory empty_store !! Lock.value mylock = None.
Proof.
  assert (H : advisory (invoke (method_Lock context_TODO) mylock empty_store).2
                !! Lock.value mylock = Some 0%nat) by (vm_compute; reflexivity).
  split; [exact H|].
  destruct (takes_own_key_only (method_Lock context_TODO) mylock empty_store
              (Lock.value mylock) 0%nat H) as [H0|_].
  - unfold empty_store in H0. simpl in H0. rewrite lookup_empty in H0.
    discriminate.
  - unfold empty_store. simpl. apply lookup_empty.
Defined.

(** ** Calls made with a context that is done *)

(** X17. A context that is done costs the lock.  Lock and IsLock called
    with such a context fail and leave the handle Unlocked, and no session
    is begun.  On an Unlocked handle Lock returns the error of the context
    after the refused call to begin, and IsLock sends nothing.  On a
    Locked handle both do the same: the probe is refused, the transaction
    is rolled back, and the error is ErrAcquiredLock or wraps it; on a
    store that never fails the session is closed by it. *)
Theorem done_context_unlocks (l : Lock.t) (ctx : Context) (d : DB) (e : error) :
  context_Err ctx = Some e ->
  let r := Lock.Lock l ctx d in
  let r' := Lock.IsLock l ctx d in
  r.1.1 <> None /\ r'.1.1 <> None /\
  Lock.tx r.1.2 = None /\ Lock.tx r'.1.2 = None /\
  (Lock.tx l = None ->
     r.1 = (Some e, l) /\
     sessions r.2 = sessions d /\ advisory r.2 = advisory d /\
     log r.2 = (log d ++ [call_BeginTxx])%list /\
     r'.2 = d) /\
  (forall t, Lock.tx l = Some t ->
     r = r' /\
     Is r.1.1 (Some dlock.ErrAcquiredLock) = true /\
     log r.2 = (log d ++ [call_GetContext t select_true; call_Rollback t])%list /\
     (script d = [] -> alive t r.2 = false)).
Proof.
  intros L. cbv zeta. unfold Lock.IsLock.
  destruct (isLock_done l ctx d e L) as (H1 & H2 & H3).
  destruct (Lock.tx l) as [t|] eqn:E.
  - rewrite (Lock_relock l ctx d t E).
    split; [exact H1|]. split; [exact H1|]. split; [exact H2|]. split; [exact H2|].
    split; [discriminate|]. intros t' [= <-].
    destruct (H3 t eq_refl) as [H4 H5].
    split; [reflexivity|]. split; [|split; [exact H4|]].
    + pose proof (GetContext_done t ctx {| Succeed := false |} select_true d e L) as P.
      fold (probe t ctx) in P.
      match type of P with _ = (_, ?x) => remember x as d1 eqn:Hd1 end.
      destruct (sqlx.Rollback t d1) as [rb d2] eqn:R.
      rewrite (isLock_lost l ctx d d1 d2 t _ e rb E P R). cbn [fst snd].
      destruct rb; [apply Is_Wrap | reflexivity].
    + intros Hs. apply H5, Hs.
  - rewrite (Lock_done l ctx d e E L), (isLock_unlocked l ctx d E). cbn [fst snd].
    split; [discriminate|]. split; [discriminate|].
    split; [exact E|]. split; [exact E|].
    split; [|intros t Ht; discriminate].
    intros _. repeat split; reflexivity.
Qed.

(** X17 on the test's first handle, Locked, and a cancelled context: Lock
    leaves it Unlocked and its session closed. *)
Lemma done_context_unlocks_witness :
  let ctx := context_done context_TODO context_Canceled in
  Lock.tx mylock_locked = Some 0%nat /\
  Lock.tx (Lock.Lock mylock_locked ctx store_locked).1.2 = None /\
  alive 0%nat (Lock.Lock mylock_locked ctx store_locked).2 = false.
Proof.
  cbv zeta. split; [reflexivity|].
  destruct (done_context_unlocks mylock_locked
              (context_done context_TODO context_Canceled) store_locked
              context_Canceled eq_refl)
    as (_ & _ & H1 & _ & _ & H2).
  split; [exact H1|].
  destruct (H2 0%nat eq_refl) as (_ & _ & _ & H3). apply H3. reflexivity.
Defined.

(** X18. WaitForLock never acquires with a context that is done.  When
    the calls of Lock find the context done, every tick is a refused call
    to begin a session and nothing more: WaitForLock does not return nil,
    the handle stays Unlocked, and the sessions and the lock table are as
    they were, however many ticks the select takes before it fires on
    Done. *)
Theorem WaitForLock_done_context (sched : list dlock.selected) (ctx : Context)
    (ctx_Err e : error) (l : Lock.t) (d : DB) :
  Lock.tx l = None -> context_Err ctx = Some e ->
  let r := dlock.WaitForLock sched ctx ctx_Err (l, d) in
  r.1 <> Some None /\
  r.2.1 = l /\
  sessions r.2.2 = sessions d /\ advisory r.2.2 = advisory d /\
  log r.2.2 = (log d ++ repeat call_BeginTxx (ticks_before_Done sched))%list.
Proof.
  intros E L. cbv zeta. revert d.
  induction sched as [|[|] sched IH]; intros d.
  - cbn. rewrite app_nil_r. repeat split; discriminate.
  - cbn. rewrite app_nil_r. repeat split; discriminate.
  - cbn [dlock.WaitForLock ticks_before_Done dlock.Lock.Lock Lock_implements].
    rewrite (Lock_done l ctx d e E L).
    match goal with
    | |- context [dlock.WaitForLock sched ctx ctx_Err (l, ?x)] =>
        destruct (IH x) as (H1 & H2 & H3 & H4 & H5)
    end.
    split; [exact H1|]. split; [exact H2|]. split; [exact H3|].
    split; [exact H4|]. rewrite H5. cbn [log repeat].
    rewrite <- app_assoc. reflexivity.
Qed.

(** X18 in the test's setting: the second handle waits with a context
    whose deadline has passed; two ticks are taken before Done. *)
Lemma WaitForLock_done_context_witness :
  let ctx := context_done (context_WithTimeout context_TODO 1000000000)
               context_DeadlineExceeded in
  (dlock.WaitForLock [dlock.case_tick; dlock.case_tick; dlock.case_Done] ctx
     context_DeadlineExceeded (myLock2, empty_store)).1 <> Some None /\
  sessions (dlock.WaitForLock [dlock.case_tick; dlock.case_tick; dlock.case_Done]
              ctx context_DeadlineExceeded (myLock2, empty_store)).2.2 = [].
Proof.
  cbv zeta.
  destruct (WaitForLock_done_context
              [dlock.case_tick; dlock.case_tick; dlock.case_Done]
              (context_done (context_WithTimeout context_TODO 1000000000)
                 context_DeadlineExceeded)
              context_DeadlineExceeded context_DeadlineExceeded
              myLock2 empty_store eq_refl eq_refl)
    as (H1 & _ & H2 & _).
  split; [exact H1 | exact H2].
Defined.
